(** * pino-coralogix: the batch accumulator, the transform and the transport loop

    A shallow embedding of [src/batch.js] (class [BatchAccumulator]),
    [src/transform.js] ([transformLog]) and the ingestion loop of
    [src/index.js] ([buildTransport]).

    JavaScript runs the code on one thread: an [async] function runs
    synchronously up to its first [await], is suspended there, and is resumed
    later with the outcome of the awaited promise.  Each asynchronous method
    is therefore embedded as two functions, the synchronous prefix (which
    returns an [Async] telling whether the call ran to its end or is suspended)
    and the continuation that runs when the awaited promise settles.  The
    interleavings of the event loop are the lists of [Event]s accepted by
    [run]. *)

From stdpp Require Import gmap strings list fin_maps pretty.
From Stdlib Require Import Ascii QArith Uint63 PrimFloat.

Local Open Scope Z_scope.

(** Identity of an array object in the JavaScript heap. *)
Abbreviation loc := nat.
(** Handle returned by [setInterval]. *)
Abbreviation handle := nat.

(** The options read by the accumulator ([this.config]). *)
Record Config := {
  batchSize : Z;
  flushInterval : Z;
  maxBatchSizeBytes : Z
}.

(** How the promise returned by [onFlush] settles. *)
Inductive Outcome :=
  | Fulfilled
  | Rejected (reason : string).

(** How a call ends: normally, or by throwing (for an [async] function, by
    rejecting its promise). *)
Inductive Completion :=
  | Normal
  | Throw (reason : string).

(** The fields of one [BatchAccumulator] object.  [batch] is a reference to an
    array, [timer] is [None] for [null]. *)
Record Instance := {
  config : Config;
  batch : loc;
  currentSizeBytes : Z;
  timer : option handle;
  flushing : bool
}.

Definition set_batch (l : loc) (i : Instance) : Instance :=
  {| config := config i; batch := l; currentSizeBytes := currentSizeBytes i;
     timer := timer i; flushing := flushing i |}.

Definition set_currentSizeBytes (n : Z) (i : Instance) : Instance :=
  {| config := config i; batch := batch i; currentSizeBytes := n;
     timer := timer i; flushing := flushing i |}.

Definition set_timer (t : option handle) (i : Instance) : Instance :=
  {| config := config i; batch := batch i; currentSizeBytes := currentSizeBytes i;
     timer := t; flushing := flushing i |}.

Definition set_flushing (b : bool) (i : Instance) : Instance :=
  {| config := config i; batch := batch i; currentSizeBytes := currentSizeBytes i;
     timer := timer i; flushing := b |}.

Section BatchAccumulator.

(** The records are opaque to the accumulator: it stores them and measures
    the length of their JSON text. *)
Context {Log : Type}.
Variable JSON_stringify : Log → string.

(** The accumulator object together with the part of the JavaScript runtime
    it acts on: the array objects, the live interval timers, and the
    observable calls it makes to the outside ([onFlush], [clearInterval],
    [console.error]). *)
Record Runtime := {
  arrays : gmap loc (list Log);
  this : Instance;
  intervals : gset handle;
  onFlush_calls : list loc;      (* argument of every [onFlush] call, oldest first *)
  in_flight : list loc;          (* [onFlush] promises that have not settled yet *)
  clearInterval_calls : list handle;
  console_errors : list string
}.

Definition with_arrays (h : gmap loc (list Log)) (r : Runtime) : Runtime :=
  {| arrays := h; this := this r; intervals := intervals r;
     onFlush_calls := onFlush_calls r; in_flight := in_flight r;
     clearInterval_calls := clearInterval_calls r;
     console_errors := console_errors r |}.

Definition with_this (i : Instance) (r : Runtime) : Runtime :=
  {| arrays := arrays r; this := i; intervals := intervals r;
     onFlush_calls := onFlush_calls r; in_flight := in_flight r;
     clearInterval_calls := clearInterval_calls r;
     console_errors := console_errors r |}.

Definition with_in_flight (p : list loc) (r : Runtime) : Runtime :=
  {| arrays := arrays r; this := this r; intervals := intervals r;
     onFlush_calls := onFlush_calls r; in_flight := p;
     clearInterval_calls := clearInterval_calls r;
     console_errors := console_errors r |}.

(** ** Primitives of the runtime *)

(** The elements of the array [l]. *)
Definition read (l : loc) (r : Runtime) : list Log :=
  default [] (arrays r !! l).

(** [l.push(x)] *)
Definition push (l : loc) (x : Log) (r : Runtime) : Runtime :=
  with_arrays (alter (λ xs, xs ++ [x]) l (arrays r)) r.

(** The array literal [[]]: a new array object, distinct from every
    existing one. *)
Definition new_array (r : Runtime) : loc * Runtime :=
  let l := fresh (dom (arrays r)) in
  (l, with_arrays (<[l := []]> (arrays r)) r).

(** [setInterval(callback, delay)]; the callback of every interval of this
    development is [async () => { await this.flush() }]. *)
Definition setInterval (r : Runtime) : handle * Runtime :=
  let h := fresh (intervals r) in
  (h, {| arrays := arrays r; this := this r; intervals := {[h]} ∪ intervals r;
         onFlush_calls := onFlush_calls r; in_flight := in_flight r;
         clearInterval_calls := clearInterval_calls r;
         console_errors := console_errors r |}).

(** [clearInterval(h)] *)
Definition clearInterval (h : handle) (r : Runtime) : Runtime :=
  {| arrays := arrays r; this := this r; intervals := intervals r ∖ {[h]};
     onFlush_calls := onFlush_calls r; in_flight := in_flight r;
     clearInterval_calls := clearInterval_calls r ++ [h];
     console_errors := console_errors r |}.

(** [console.error(..., reason)] *)
Definition console_error (reason : string) (r : Runtime) : Runtime :=
  {| arrays := arrays r; this := this r; intervals := intervals r;
     onFlush_calls := onFlush_calls r; in_flight := in_flight r;
     clearInterval_calls := clearInterval_calls r;
     console_errors := console_errors r ++ [reason] |}.

(** [this.onFlush(b)]: the call is recorded and its promise is pending. *)
Definition call_onFlush (b : loc) (r : Runtime) : Runtime :=
  {| arrays := arrays r; this := this r; intervals := intervals r;
     onFlush_calls := onFlush_calls r ++ [b]; in_flight := in_flight r ++ [b];
     clearInterval_calls := clearInterval_calls r;
     console_errors := console_errors r |}.

(** ** The methods of [BatchAccumulator] *)

(** [startTimer()]; [unref] only tells the process not to wait for the
    timer and changes nothing here. *)
Definition startTimer (r : Runtime) : Runtime :=
  let r1 := match timer (this r) with
            | Some h => clearInterval h r
            | None => r
            end in
  let '(h, r2) := setInterval r1 in
  with_this (set_timer (Some h) (this r2)) r2.

(** [new BatchAccumulator(config, onFlush)] in a runtime with nothing else
    in it. *)
Definition new_BatchAccumulator (cfg : Config) : Runtime :=
  let r0 := {| arrays := ∅;
               this := {| config := cfg; batch := 0%nat; currentSizeBytes := 0;
                          timer := None; flushing := false |};
               intervals := ∅; onFlush_calls := []; in_flight := [];
               clearInterval_calls := []; console_errors := [] |} in
  let '(l, r1) := new_array r0 in
  startTimer (with_this (set_batch l (this r1)) r1).

(** [estimateLogSize(log)] *)
Definition estimateLogSize (log : Log) : Z :=
  Z.of_nat (String.length (JSON_stringify log)).

(** [needsFlush()].  The byte counts are integers and the product with 0.8
    is taken exactly, in the rationals; [needsFlush_double] below is the same
    test in double precision. *)
Definition needsFlush (r : Runtime) : bool :=
  let threshold := (inject_Z (maxBatchSizeBytes (config (this r))) * 0.8)%Q in
  Qle_bool threshold (inject_Z (currentSizeBytes (this r))).

(** [add(log)] *)
Definition add (log : Log) (r : Runtime) : bool * Runtime :=
  let r1 := push (batch (this r)) log r in
  let r2 := with_this (set_currentSizeBytes
                         (currentSizeBytes (this r1) + estimateLogSize log)
                         (this r1)) r1 in
  (needsFlush r2, r2).

(** [estimatedSizeBytes()] *)
Definition estimatedSizeBytes (r : Runtime) : Z := currentSizeBytes (this r).

(** [size()] *)
Definition size (r : Runtime) : Z := Z.of_nat (length (read (batch (this r)) r)).

(** Result of the synchronous prefix of an [async] method: it ran to its
    end ([Returned], the promise is already fulfilled), or it is suspended at
    [await this.onFlush(b)] ([Awaiting]). *)
Inductive Async :=
  | Returned (r : Runtime)
  | Awaiting (r : Runtime) (b : loc).

Definition runtime_of (a : Async) : Runtime :=
  match a with Returned r => r | Awaiting r _ => r end.

(** [flush()], up to [await this.onFlush(batchToFlush)]. *)
Definition flush (r : Runtime) : Async :=
  if flushing (this r) || (size r =? 0) then Returned r
  else
    let r1 := with_this (set_flushing true (this r)) r in
    let batchToFlush := batch (this r1) in
    let '(l, r2) := new_array r1 in
    let r3 := with_this (set_batch l (this r2)) r2 in
    let r4 := with_this (set_currentSizeBytes 0 (this r3)) r3 in
    Awaiting (call_onFlush batchToFlush r4) batchToFlush.

(** [await p] once [p] has settled: a rejected promise makes the [await]
    expression throw the reason. *)
Definition await (o : Outcome) : Completion :=
  match o with
  | Fulfilled => Normal
  | Rejected reason => Throw reason
  end.

(** [flush()], from the point where the promise of [onFlush] settles: the end
    of the [try] block, the [catch] clause, then the [finally] clause. *)
Definition flush_resume (o : Outcome) (r : Runtime) : Completion * Runtime :=
  let '(c, r1) := match await o with
                  | Normal => (Normal, r)
                  | Throw error => (Normal, console_error error r)
                  end in
  (c, with_this (set_flushing false (this r1)) r1).

(** The [if (this.timer) { ... }] of [stop()]. *)
Definition cancel_timer (r : Runtime) : Runtime :=
  match timer (this r) with
  | Some h => with_this (set_timer None (this r)) (clearInterval h r)
  | None => r
  end.

(** [stop()], up to the [await] inside [await this.flush()]. *)
Definition stop (r : Runtime) : Async :=
  flush (cancel_timer r).

(** [stop()], resumed when [flush] ends: [await this.flush()] throws if
    [flush] has thrown, and [stop] has nothing left to do. *)
Definition stop_resume (o : Outcome) (r : Runtime) : Completion * Runtime :=
  let '(c, r1) := flush_resume o r in
  match c with
  | Normal => (Normal, r1)
  | Throw error => (Throw error, r1)
  end.

(** ** The event loop *)

Inductive Event :=
  | EvAdd (log : Log)               (* a call of [add] *)
  | EvFlush                         (* a call of [flush] *)
  | EvTick (h : handle)             (* the interval [h] fires *)
  | EvSettle (i : nat) (o : Outcome) (* the [i]-th pending [onFlush] promise settles *)
  | EvStop.                         (* a call of [stop] *)

Definition step (e : Event) (r : Runtime) : option Runtime :=
  match e with
  | EvAdd log => Some (add log r).2
  | EvFlush => Some (runtime_of (flush r))
  | EvTick h =>
      if decide (h ∈ intervals r) then Some (runtime_of (flush r)) else None
  | EvSettle i o =>
      match in_flight r !! i with
      | Some _ => Some (flush_resume o (with_in_flight (delete i (in_flight r)) r)).2
      | None => None
      end
  | EvStop => Some (runtime_of (stop r))
  end.

Fixpoint run (es : list Event) (r : Runtime) : option Runtime :=
  match es with
  | [] => Some r
  | e :: es' =>
      match step e r with
      | Some r' => run es' r'
      | None => None
      end
  end.

(** The states an accumulator built with [cfg] can be in. *)
Definition reachable (cfg : Config) (r : Runtime) : Prop :=
  ∃ es, run es (new_BatchAccumulator cfg) = Some r.

(** ** Predicates used by the properties *)

(** Sum of the estimated sizes of a sequence of records. *)
Definition total_size (logs : list Log) : Z :=
  foldr (λ log n, estimateLogSize log + n) 0 logs.

(** What holds of the accumulator between any two events: the buffer is an
    allocated array, the arrays handed to [onFlush] are allocated and none of
    them is the buffer, the size counter is the sum of the sizes of the
    buffered records, the latch [flushing] is set exactly when one [onFlush]
    promise is pending, and the only live interval is the one in [timer]. *)
Record wf (r : Runtime) : Prop := {
  wf_batch : batch (this r) ∈ dom (arrays r);
  wf_calls : ∀ l, l ∈ onFlush_calls r → l ∈ dom (arrays r) ∧ l ≠ batch (this r);
  wf_size : currentSizeBytes (this r) = total_size (read (batch (this r)) r);
  wf_latch : in_flight r = [] ∧ flushing (this r) = false
             ∨ (∃ b, in_flight r = [b]) ∧ flushing (this r) = true;
  wf_timer : intervals r = match timer (this r) with
                           | Some h => {[h]}
                           | None => ∅
                           end
}.

(** [started r r']: [r'] is what a call of [flush] that passes its guard in
    [r] leaves when it is suspended: the buffer of [r] has been handed to
    [onFlush] and replaced by a new, empty array. *)
Record started (r r' : Runtime) : Prop := {
  started_batch : batch (this r') = fresh (dom (arrays r));
  started_arrays : arrays r' = <[fresh (dom (arrays r)) := []]> (arrays r);
  started_size : currentSizeBytes (this r') = 0;
  started_flushing : flushing (this r') = true;
  started_config : config (this r') = config (this r);
  started_calls : onFlush_calls r' = onFlush_calls r ++ [batch (this r)];
  started_in_flight : in_flight r' = in_flight r ++ [batch (this r)]
}.

(** The two ways a call of [flush] goes. *)
Inductive flush_view (r : Runtime) : Async → Prop :=
  | flush_skips :
      flushing (this r) = true ∨ read (batch (this r)) r = [] →
      flush_view r (Returned r)
  | flush_starts r' :
      flushing (this r) = false → read (batch (this r)) r ≠ [] →
      started r r' →
      flush_view r (Awaiting r' (batch (this r))).

(** The events that are calls of [add]. *)
Definition is_add (e : Event) : bool :=
  match e with EvAdd _ => true | _ => false end.

(** The records added by a sequence of events, in order. *)
Definition adds_of (es : list Event) : list Log :=
  omap (λ e, match e with EvAdd log => Some log | _ => None end) es.

(** [quiet e r r']: the event [e] takes [r] to [r'] without a call of
    [onFlush]; the buffer object stays, and gains the record [e] adds. *)
Record quiet (e : Event) (r r' : Runtime) : Prop := {
  quiet_batch : batch (this r') = batch (this r);
  quiet_calls : onFlush_calls r' = onFlush_calls r;
  quiet_config : config (this r') = config (this r);
  quiet_read : read (batch (this r)) r' = read (batch (this r)) r ++ adds_of [e];
  quiet_frame : ∀ l, l ≠ batch (this r) → read l r' = read l r;
  quiet_size : currentSizeBytes (this r')
               = currentSizeBytes (this r) + total_size (adds_of [e])
}.

(** The values returned by successive calls of [add]. *)
Fixpoint add_results (logs : list Log) (r : Runtime) : list bool :=
  match logs with
  | [] => []
  | log :: logs' => (add log r).1 :: add_results logs' (add log r).2
  end.

End BatchAccumulator.

Arguments Runtime : clear implicits.
Arguments Async : clear implicits.
Arguments Event : clear implicits.

(** ** What a run delivers and reports *)

(** The records handed to [onFlush] so far, batch after batch, as the arrays
    hold them now. *)
Definition delivered {Log : Type} (r : Runtime Log) : list Log :=
  concat ((λ l, read l r) <$> onFlush_calls r).

(** The reasons of the rejections among the events of a run, in order. *)
Definition rejections {Log : Type} (es : list (Event Log)) : list string :=
  omap (λ e, match e with
             | EvSettle _ (Rejected reason) => Some reason
             | _ => None
             end) es.

(** The events that fire the interval. *)
Definition is_tick {Log : Type} (e : Event Log) : bool :=
  match e with EvTick _ => true | _ => false end.

(** The events that call [flush]: a direct call, a tick, or [stop]. *)
Definition calls_flush {Log : Type} (e : Event Log) : bool :=
  match e with EvFlush | EvTick _ | EvStop => true | _ => false end.


(** ** The threshold in double precision

    JavaScript computes [maxBatchSizeBytes * 0.8] and the comparison on IEEE
    754 doubles; 0.8 is the double [0x1.999999999999ap-1]. *)

Definition double_of_Z (n : Z) : float := PrimFloat.of_uint63 (Uint63.of_Z n).

Definition needsFlush_double (maxBatchSizeBytes currentSizeBytes : Z) : bool :=
  let threshold :=
    PrimFloat.mul (double_of_Z maxBatchSizeBytes) 0x1.999999999999ap-1%float in
  PrimFloat.leb threshold (double_of_Z currentSizeBytes).

(** * [src/transform.js] *)

(** The values a field of a parsed log line or of the options can hold.
    Objects and arrays are kept as one case: the transform only tests them for
    truthiness and turns them into their JSON text. *)
Inductive JsValue :=
  | JsUndefined
  | JsNull
  | JsBoolean (b : bool)
  | JsNumber (n : Q)
  | JsString (s : string)
  | JsObject (json : string).

(** [if (v)] *)
Definition truthy (v : JsValue) : bool :=
  match v with
  | JsUndefined | JsNull => false
  | JsBoolean b => b
  | JsNumber n => negb (Qeq_bool n 0)
  | JsString s => negb (String.eqb s "")
  | JsObject _ => true
  end.

(** The properties [transformLog] reads from its argument; a property that is
    absent reads as [JsUndefined].  Every value other than [null] and
    [undefined] is given this way (of a number, a string, a boolean or an
    array all eight read as [JsUndefined]); [null] and [undefined], of which
    no property can be read, are the [None] of [option PinoLog.t]. *)
Module PinoLog.
Record t := {
  time : JsValue;
  level : JsValue;
  msg : JsValue;
  hostname : JsValue;
  category : JsValue;
  className : JsValue;
  methodName : JsValue;
  threadId : JsValue
}.
End PinoLog.

(** The options of the transport, as given by the caller.  The five numeric
    options are [None] when left out. *)
Module Options.
Record t := {
  domain : JsValue;
  apiKey : JsValue;
  applicationName : JsValue;
  subsystemName : JsValue;
  computerName : JsValue;
  batchSize : option Z;
  flushInterval : option Z;
  timeout : option Z;
  maxRetries : option Z;
  maxBatchSizeBytes : option Z
}.
End Options.

(** What [LEVEL_TO_SEVERITY[key] || 3] evaluates to: a number, or the member
    [name] of [Object.prototype] (a function, and for [__proto__] the
    prototype object itself), which the table, an object literal, inherits. *)
Inductive Severity :=
  | Ordinal (n : Z)
  | Inherited (name : string).

(** The object built by [transformLog]; an optional property that is not set
    is [JsUndefined]. *)
Module CoralogixLog.
Record t := {
  timestamp : JsValue;
  applicationName : JsValue;
  subsystemName : JsValue;
  severity : Severity;
  text : string;
  computerName : JsValue;
  category : JsValue;
  className : JsValue;
  methodName : JsValue;
  threadId : JsValue
}.
End CoralogixLog.

(** [LEVEL_TO_SEVERITY]: the own properties of the object literal, whose
    numeric keys are the property names ["10"] to ["60"]. *)
Definition LEVEL_TO_SEVERITY : gmap string Z :=
  {[ "10" := 1; "20" := 2; "30" := 3; "40" := 4; "50" := 5; "60" := 6 ]}.

(** The names of the properties of [Object.prototype]. *)
Definition Object_prototype : list string :=
  ["constructor"; "__defineGetter__"; "__defineSetter__"; "hasOwnProperty";
   "__lookupGetter__"; "__lookupSetter__"; "isPrototypeOf";
   "propertyIsEnumerable"; "toString"; "valueOf"; "__proto__";
   "toLocaleString"].

(** [LEVEL_TO_SEVERITY[key]]: the own property of that name, else the one
    inherited from [Object.prototype], else [undefined] ([None]). *)
Definition LEVEL_TO_SEVERITY_get (key : string) : option Severity :=
  match LEVEL_TO_SEVERITY !! key with
  | Some n => Some (Ordinal n)
  | None =>
      if bool_decide (key ∈ Object_prototype) then Some (Inherited key) else None
  end.

(** [v || d]: a function or an object is truthy, a number is unless it is 0. *)
Definition or_else (v : option Severity) (d : Z) : Severity :=
  match v with
  | Some (Ordinal x) => if x =? 0 then Ordinal d else Ordinal x
  | Some (Inherited name) => Inherited name
  | None => Ordinal d
  end.

(** [x ? x : undefined] on an optional property: the value when it is truthy. *)
Definition when_truthy (v : JsValue) : JsValue :=
  if truthy v then v else JsUndefined.

Section Transform.

(** [String(v)] for a number. *)
Variable Number_toString : Q → string.
(** [String(v)] for an object or an array, given by its JSON text: what its
    [toString] or [valueOf] gives, [None] when neither gives a primitive and
    the conversion throws a [TypeError]. *)
Variable Object_toString : string → option string.

(** [ToPropertyKey(v)]: the property name [obj[v]] looks up. *)
Definition ToPropertyKey (v : JsValue) : option string :=
  match v with
  | JsUndefined => Some "undefined"
  | JsNull => Some "null"
  | JsBoolean b => Some (if b then "true" else "false")
  | JsNumber n => Some (Number_toString n)
  | JsString s => Some s
  | JsObject json => Object_toString json
  end.

(** [formatMessage(msg)] *)
Definition formatMessage (msg : JsValue) : string :=
  match msg with
  | JsUndefined | JsNull => ""
  | JsString s => s
  | JsObject json => json
  | JsBoolean b => if b then "true" else "false"
  | JsNumber n => Number_toString n
  end.

(** [transformLog(pinoLog, config)]: the object it returns, [None] when it
    throws a [TypeError].  It throws when [pinoLog] is [null] or [undefined]
    (at [pinoLog.time]) and when the level cannot be turned into a property
    key (at [LEVEL_TO_SEVERITY[pinoLog.level]]). *)
Definition transformLog (pinoLog : option PinoLog.t) (config : Options.t)
  : option CoralogixLog.t :=
  pinoLog ← pinoLog;
  key ← ToPropertyKey (PinoLog.level pinoLog);
  Some
    {| CoralogixLog.timestamp := PinoLog.time pinoLog;
       CoralogixLog.applicationName := Options.applicationName config;
       CoralogixLog.subsystemName := Options.subsystemName config;
       CoralogixLog.severity := or_else (LEVEL_TO_SEVERITY_get key) 3;
       CoralogixLog.text := formatMessage (PinoLog.msg pinoLog);
       CoralogixLog.computerName :=
         if truthy (Options.computerName config) then Options.computerName config
         else when_truthy (PinoLog.hostname pinoLog);
       CoralogixLog.category := when_truthy (PinoLog.category pinoLog);
       CoralogixLog.className := when_truthy (PinoLog.className pinoLog);
       CoralogixLog.methodName := when_truthy (PinoLog.methodName pinoLog);
       CoralogixLog.threadId := when_truthy (PinoLog.threadId pinoLog) |}.

End Transform.

(** * [src/index.js]: the ingestion loop of [buildTransport] *)

(** [DEFAULT_CONFIG] *)
Definition DEFAULT_batchSize : Z := 100.
Definition DEFAULT_flushInterval : Z := 1000.
Definition DEFAULT_maxBatchSizeBytes : Z := 2 * 1024 * 1024.

(** The three options handed to [new BatchAccumulator], read from
    [{...DEFAULT_CONFIG, ...opts}]. *)
Definition accumulator_config (opts : Options.t) : Config :=
  {| batchSize := default DEFAULT_batchSize (Options.batchSize opts);
     flushInterval := default DEFAULT_flushInterval (Options.flushInterval opts);
     maxBatchSizeBytes :=
       default DEFAULT_maxBatchSizeBytes (Options.maxBatchSizeBytes opts) |}.

Section Transport.

Variable Number_toString : Q → string.
Variable Object_toString : string → option string.
Variable JSON_stringify : CoralogixLog.t → string.
(** [JSON.parse] of a line: [None] when it throws; else the value it returns,
    which is [null] ([Some None]) for the line [null]. *)
Variable JSON_parse : string → option (option PinoLog.t).

Variable opts : Options.t.

(** The item read from the source is a line still to be parsed or a value
    that is not a string:
    [if (typeof obj === 'string') obj = JSON.parse(obj)]. *)
Definition parse (obj : string + option PinoLog.t) : option (option PinoLog.t) :=
  match obj with
  | inl line => JSON_parse line
  | inr v => Some v
  end.

(** One turn of [for await (let obj of source)].  The result is [None] when
    the body throws (the [TypeError] of [transformLog], which nothing in the
    loop catches); otherwise it tells whether the body ran to its end or is
    suspended in [await batchAccumulator.flush()]. *)
Definition loop_body (obj : string + option PinoLog.t) (r : Runtime CoralogixLog.t)
  : option (Async CoralogixLog.t) :=
  match parse obj with
  | None => Some (Returned (console_error "Failed to parse log line:" r))
  | Some v =>
      coralogixLog ← transformLog Number_toString Object_toString v opts;
      let '(needsFlush, r1) := add JSON_stringify coralogixLog r in
      Some (if needsFlush && (batchSize (accumulator_config opts) <=? size r1)
            then flush r1
            else Returned r1)
  end.

End Transport.

(** ** The function given to [build], on a source that ends

    The loop reads the next item only when the [flush] it awaits has ended,
    and it ends at the first turn that throws.  Here the run of the whole
    function is taken with no tick of the interval in between, so that the
    only deliveries are those the loop and the final [stop] start; [outcome]
    tells how the delivery of each batch settles. *)

Section Consume.

Variable Number_toString : Q → string.
Variable Object_toString : string → option string.
Variable JSON_stringify : CoralogixLog.t → string.
Variable JSON_parse : string → option (option PinoLog.t).
Variable opts : Options.t.
Variable outcome : loc → Outcome.

(** [await a] for the promise of [flush] or [stop]: when the call is
    suspended on the delivery of [b], that delivery (the latest one started)
    settles and the call runs to its end. *)
Definition await_settled (a : Async CoralogixLog.t) : Runtime CoralogixLog.t :=
  match a with
  | Returned r => r
  | Awaiting r b =>
      (flush_resume (outcome b)
         (with_in_flight (delete (Nat.pred (length (in_flight r))) (in_flight r)) r)).2
  end.

(** What the loop throws when [transformLog] throws. *)
Definition TypeError : string := "TypeError".

(** [for await (let obj of source) { ... }]: the loop ends normally when the
    source is exhausted, and by throwing at the first turn that throws, the
    rest of the source unread. *)
Fixpoint for_await (source : list (string + option PinoLog.t))
    (r : Runtime CoralogixLog.t) : Completion * Runtime CoralogixLog.t :=
  match source with
  | [] => (Normal, r)
  | obj :: rest =>
      match loop_body Number_toString Object_toString JSON_stringify JSON_parse
              opts obj r with
      | Some a => for_await rest (await_settled a)
      | None => (Throw TypeError, r)
      end
  end.

(** The loop, then the [finally] clause, [await batchAccumulator.stop()],
    after which the function ends the way the loop did. *)
Definition consume (source : list (string + option PinoLog.t))
    (r : Runtime CoralogixLog.t) : Completion * Runtime CoralogixLog.t :=
  let '(c, r1) := for_await source r in
  (c, await_settled (stop r1)).

(** The records the loop hands to [add]: those of the items that parse, up
    to the first item on which [transformLog] throws. *)
Fixpoint added_by (source : list (string + option PinoLog.t))
  : list CoralogixLog.t :=
  match source with
  | [] => []
  | obj :: rest =>
      match parse JSON_parse obj with
      | None => added_by rest
      | Some v =>
          match transformLog Number_toString Object_toString v opts with
          | Some coralogixLog => coralogixLog :: added_by rest
          | None => []
          end
      end
  end.

(** The items on which the loop body throws. *)
Definition throws (obj : string + option PinoLog.t) : bool :=
  match parse JSON_parse obj with
  | None => false
  | Some v =>
      match transformLog Number_toString Object_toString v opts with
      | None => true
      | Some _ => false
      end
  end.

(** The [close] hook: [await batchAccumulator.stop()]. *)
Definition close (r : Runtime CoralogixLog.t) : Runtime CoralogixLog.t :=
  await_settled (stop r).

(** The state between two turns of the loop: the invariant of the
    accumulator holds and nothing is in flight. *)
Definition idle (r : Runtime CoralogixLog.t) : Prop :=
  wf JSON_stringify r ∧ flushing (this r) = false.

End Consume.


(** ** [validateConfig] *)

(** [VALID_DOMAINS] *)
Definition VALID_DOMAINS : list string :=
  ["us1"; "us2"; "eu1"; "eu2"; "ap1"; "ap2"; "ap3"].

(** The errors [validateConfig] throws, one constructor per message:
    ['domain is required'], ['Invalid domain: ...'] (which quotes the value
    given), ['apiKey is required'], ['applicationName is required'] and
    ['subsystemName is required']. *)
Inductive ConfigError :=
  | DomainRequired
  | InvalidDomain (domain : JsValue)
  | ApiKeyRequired
  | ApplicationNameRequired
  | SubsystemNameRequired.

(** [xs.includes(v)] for an array of strings: only a string equal to an
    element is included. *)
Definition includes (xs : list string) (v : JsValue) : bool :=
  match v with
  | JsString s => bool_decide (s ∈ xs)
  | _ => false
  end.

(** [validateConfig(opts)]: [None] when it returns, [Some] of the error when
    it throws. *)
Definition validateConfig (opts : Options.t) : option ConfigError :=
  if negb (truthy (Options.domain opts)) then Some DomainRequired
  else if negb (includes VALID_DOMAINS (Options.domain opts))
  then Some (InvalidDomain (Options.domain opts))
  else if negb (truthy (Options.apiKey opts)) then Some ApiKeyRequired
  else if negb (truthy (Options.applicationName opts))
  then Some ApplicationNameRequired
  else if negb (truthy (Options.subsystemName opts))
  then Some SubsystemNameRequired
  else None.

(** * [src/http.js] *)

(** [buildEndpointUrl(domain)] *)
Definition buildEndpointUrl (domain : string) : string :=
  "https://ingress." +:+ domain +:+ ".coralogix.com/logs/v1/singles".

(** What [sendLogs] throws: an [HttpError] with its [message], [statusCode]
    and [body], or a plain [Error] with its [message]. *)
Inductive SendError :=
  | HttpError (message : string) (statusCode : Z) (body : string)
  | Error (message : string).

(** The arguments of the call of [request]. *)
Record Request := {
  url : string;
  method : string;
  headers : list (string * string);
  body : string;
  headersTimeout : option Z;
  bodyTimeout : option Z
}.

(** How the call of [request] goes: it rejects, it resolves with a response
    whose body cannot be read, or it resolves with a response and its body
    text. *)
Inductive Reply :=
  | RequestFailed (message : string)
  | BodyFailed (statusCode : Z) (message : string)
  | Responded (statusCode : Z) (responseBody : string).

(** [JSON.stringify] of an array of records: the texts of the records,
    separated by commas, between brackets. *)
Definition JSON_stringify_array {Log : Type} (JSON_stringify : Log → string)
    (logs : list Log) : string :=
  "[" +:+ String.concat "," (JSON_stringify <$> logs) +:+ "]".

Section SendLogs.

Context {Log : Type}.
Variable JSON_stringify : Log → string.

(** [sendLogs(logs, config)], up to the call of [request]: [domain], [apiKey]
    and [timeout] are the fields of [config]. *)
Definition sendLogs_request (logs : list Log)
    (domain apiKey : string) (timeout : option Z) : Request :=
  {| url := buildEndpointUrl domain;
     method := "POST";
     headers := [("Content-Type", "application/json");
                 ("Authorization", "Bearer " +:+ apiKey)];
     body := JSON_stringify_array JSON_stringify logs;
     headersTimeout := timeout;
     bodyTimeout := timeout |}.

End SendLogs.

(** The [try] block of [sendLogs] once [request] has settled: the status code
    of [{ success: true, statusCode }], or what is thrown (for an error that
    is not an [HttpError], its message). *)
Definition sendLogs_try (reply : Reply) : Z + SendError :=
  match reply with
  | RequestFailed message => inr (Error message)
  | BodyFailed _ message => inr (Error message)
  | Responded statusCode responseBody =>
      if (200 <=? statusCode) && (statusCode <? 300) then inl statusCode
      else inr (HttpError ("HTTP " +:+ pretty statusCode +:+ ": " +:+ responseBody)
                  statusCode responseBody)
  end.

(** [sendLogs], from the settlement of [request] on: the [catch] clause
    throws an [HttpError] again and wraps any other error. *)
Definition sendLogs_settle (reply : Reply) : Z + SendError :=
  match sendLogs_try reply with
  | inl statusCode => inl statusCode
  | inr (HttpError message statusCode body) =>
      inr (HttpError message statusCode body)
  | inr (Error message) => inr (Error ("Failed to send logs: " +:+ message))
  end.


(** * Sample runs

    The configuration of [test/batch.test.js], with records that are given by
    their JSON text. *)

Definition test_config : Config :=
  {| batchSize := 3; flushInterval := 100; maxBatchSizeBytes := 1024 |}.

Definition json_text (log : string) : string := log.

Definition new_accumulator : Runtime string := new_BatchAccumulator test_config.

(** A new accumulator with one record added. *)
Definition one_buffered : Runtime string :=
  (add json_text "{}" new_accumulator).2.

(** The same, suspended in a first [flush]. *)
Definition one_in_flight : Runtime string :=
  runtime_of (flush one_buffered).

(** The same after the delivery has been fulfilled. *)
Definition one_delivered : Runtime string :=
  (flush_resume Fulfilled (with_in_flight [] one_in_flight)).2.

(** One record, then [stop], then the delivery fulfilled. *)
Definition one_stopped : Runtime string :=
  (stop_resume Fulfilled (with_in_flight [] (runtime_of (stop one_buffered)))).2.

(** Three records added to a new accumulator. *)
Definition three_buffered : Runtime string :=
  (add json_text "{'n':3}"
     (add json_text "{'n':2}"
        (add json_text "{'n':1}" new_accumulator).2).2).2.

(** A small ceiling: the threshold is 8 bytes. *)
Definition small_config : Config :=
  {| batchSize := 3; flushInterval := 100; maxBatchSizeBytes := 10 |}.

Definition nine_bytes : Runtime string :=
  (add json_text "{'a':123}" (new_BatchAccumulator small_config)).2.

(** A record is added while a flush started by the timer is in flight ... *)
Definition added_during_flight : Runtime string :=
  (add json_text "{'n':2}"
     (runtime_of (flush (add json_text "{'n':1}" new_accumulator).2))).2.

(** ... [stop] is called before the delivery settles ... *)
Definition stopped_during_flight : Runtime string :=
  runtime_of (stop added_during_flight).

(** ... and the delivery then settles. *)
Definition settled_after_stop : Runtime string :=
  (flush_resume Fulfilled (with_in_flight [] stopped_during_flight)).2.

(** Options and a record for the transport. *)
Definition test_options : Options.t :=
  {| Options.domain := JsString "us1";
     Options.apiKey := JsString "test-api-key";
     Options.applicationName := JsString "test-app";
     Options.subsystemName := JsString "test-subsystem";
     Options.computerName := JsUndefined;
     Options.batchSize := Some 2;
     Options.flushInterval := None;
     Options.timeout := None;
     Options.maxRetries := None;
     Options.maxBatchSizeBytes := Some 10 |}.

Definition test_record (lvl : JsValue) : PinoLog.t :=
  {| PinoLog.time := JsNumber 1675148539123;
     PinoLog.level := lvl;
     PinoLog.msg := JsString "Test message";
     PinoLog.hostname := JsString "test-host";
     PinoLog.category := JsUndefined;
     PinoLog.className := JsUndefined;
     PinoLog.methodName := JsUndefined;
     PinoLog.threadId := JsUndefined |}.

(** Stand-ins for the primitives in the sample runs: a record is measured by
    its text, a number is printed as the decimal digits of its integer part,
    every object prints as a plain object does, and the only line that parses
    is [null]. *)
Definition text_only (log : CoralogixLog.t) : string := CoralogixLog.text log.
Definition decimal (n : Q) : string := pretty (Qnum n `div` Z.pos (Qden n)).
Definition object_Object (json : string) : option string := Some "[object Object]".
Definition null_only (line : string) : option (option PinoLog.t) :=
  if String.eqb line "null" then Some None else None.

(** A record of level 30 and what [transformLog] makes of it. *)
Definition info_record : PinoLog.t := test_record (JsNumber (inject_Z 30)).

Definition info_log : CoralogixLog.t :=
  {| CoralogixLog.timestamp := JsNumber 1675148539123;
     CoralogixLog.applicationName := JsString "test-app";
     CoralogixLog.subsystemName := JsString "test-subsystem";
     CoralogixLog.severity := Ordinal 3;
     CoralogixLog.text := "Test message";
     CoralogixLog.computerName := JsString "test-host";
     CoralogixLog.category := JsUndefined;
     CoralogixLog.className := JsUndefined;
     CoralogixLog.methodName := JsUndefined;
     CoralogixLog.threadId := JsUndefined |}.

(** The same record with level 50, transformed. *)
Definition error_log : CoralogixLog.t :=
  {| CoralogixLog.timestamp := JsNumber 1675148539123;
     CoralogixLog.applicationName := JsString "test-app";
     CoralogixLog.subsystemName := JsString "test-subsystem";
     CoralogixLog.severity := Ordinal 5;
     CoralogixLog.text := "Test message";
     CoralogixLog.computerName := JsString "test-host";
     CoralogixLog.category := JsUndefined;
     CoralogixLog.className := JsUndefined;
     CoralogixLog.methodName := JsUndefined;
     CoralogixLog.threadId := JsUndefined |}.

Definition new_transport_accumulator : Runtime CoralogixLog.t :=
  new_BatchAccumulator (accumulator_config test_options).

(** One record whose delivery is rejected. *)
Definition one_rejected : Runtime string :=
  (flush_resume (Rejected "Flush failed") (with_in_flight [] one_in_flight)).2.

(** Records measured by a text that is never empty. *)
Definition quoted (log : string) : string := "'" +:+ log +:+ "'".

Definition new_quoted_accumulator : Runtime string := new_BatchAccumulator test_config.

(** Options that name the computer, and options without a domain. *)
Definition named_options : Options.t :=
  {| Options.domain := JsString "eu1";
     Options.apiKey := JsString "test-api-key";
     Options.applicationName := JsString "test-app";
     Options.subsystemName := JsString "test-subsystem";
     Options.computerName := JsString "test-server";
     Options.batchSize := None;
     Options.flushInterval := None;
     Options.timeout := None;
     Options.maxRetries := None;
     Options.maxBatchSizeBytes := None |}.

Definition options_without_domain : Options.t :=
  {| Options.domain := JsString "";
     Options.apiKey := JsUndefined;
     Options.applicationName := JsString "test-app";
     Options.subsystemName := JsString "test-subsystem";
     Options.computerName := JsUndefined;
     Options.batchSize := None;
     Options.flushInterval := None;
     Options.timeout := None;
     Options.maxRetries := None;
     Options.maxBatchSizeBytes := None |}.


(** * The accumulator: invariants *)

Section BatchAccumulatorFacts.

Context {Log : Type}.
Variable JSON_stringify : Log → string.

Implicit Types (r : Runtime Log) (l b : loc) (log : Log) (logs : list Log).
Implicit Types (e : Event Log) (es : list (Event Log)).

Local Abbreviation estimateLogSize := (estimateLogSize JSON_stringify).
Local Abbreviation add := (add JSON_stringify).
Local Abbreviation step := (step JSON_stringify).
Local Abbreviation run := (run JSON_stringify).
Local Abbreviation reachable := (reachable JSON_stringify).
Local Abbreviation total_size := (total_size JSON_stringify).
Local Abbreviation wf := (wf JSON_stringify).
Local Abbreviation quiet := (quiet JSON_stringify).

(** ** Sizes *)

Lemma total_size_app logs1 logs2 :
  total_size (logs1 ++ logs2) = total_size logs1 + total_size logs2.
Proof. induction logs1 as [|x xs IH]; simpl; [done | rewrite IH; lia]. Qed.

Lemma estimateLogSize_nonneg log : 0 ≤ estimateLogSize log.
Proof. apply Nat2Z.is_nonneg. Qed.

Lemma total_size_nonneg logs : 0 ≤ total_size logs.
Proof.
  induction logs as [|x xs IH]; simpl; [done |].
  pose proof (estimateLogSize_nonneg x). lia.
Qed.

(** ** Arrays *)

Lemma read_push_eq l x r :
  l ∈ dom (arrays r) → read l (push l x r) = read l r ++ [x].
Proof.
  intros [xs Hxs]%elem_of_dom. unfold read, push; simpl.
  by rewrite lookup_alter_eq, Hxs.
Qed.

Lemma read_push_ne l l' x r : l ≠ l' → read l' (push l x r) = read l' r.
Proof. intros Hne. unfold read, push; simpl. by rewrite lookup_alter_ne. Qed.

Lemma read_add log r :
  batch (this r) ∈ dom (arrays r) →
  read (batch (this r)) (add log r).2 = read (batch (this r)) r ++ [log].
Proof. intros Hb. by apply (read_push_eq (batch (this r)) log r). Qed.

Lemma read_add_ne log l r :
  l ≠ batch (this r) → read l (add log r).2 = read l r.
Proof. intros Hne. by apply (read_push_ne (batch (this r)) l log r). Qed.

Lemma fresh_not_allocated l r : l ∈ dom (arrays r) → l ≠ fresh (dom (arrays r)).
Proof. intros Hl ->. by apply (is_fresh (dom (arrays r))). Qed.

(** ** The two cases of [flush] *)

Lemma size_zero r : (size r =? 0) = true ↔ read (batch (this r)) r = [].
Proof.
  unfold size. rewrite Z.eqb_eq.
  destruct (read (batch (this r)) r); simpl; split; intros; try done; lia.
Qed.

Lemma flush_spec r : flush_view r (flush r).
Proof.
  unfold flush. destruct (flushing (this r)) eqn:Hf; simpl.
  { constructor. by left. }
  destruct (size r =? 0) eqn:Hs.
  { constructor. right. by apply size_zero. }
  apply (flush_starts r); [done | | by split].
  intros Hb. apply size_zero in Hb. congruence.
Qed.

Lemma flush_guard r :
  flushing (this r) = true ∨ read (batch (this r)) r = [] → flush r = Returned r.
Proof.
  intros Hg. destruct (flush_spec r) as [_ | r' Hf Hne _]; [done |].
  destruct Hg; congruence.
Qed.

Lemma flush_proceeds r :
  flushing (this r) = false → read (batch (this r)) r ≠ [] →
  ∃ r', flush r = Awaiting r' (batch (this r)) ∧ started r r'.
Proof.
  intros Hf Hne. destruct (flush_spec r) as [Hg | r' _ _ Hst]; [| by exists r'].
  destruct Hg; congruence.
Qed.

(** [flush] leaves the timer alone. *)
Lemma flush_timer r :
  timer (this (runtime_of (flush r))) = timer (this r)
  ∧ intervals (runtime_of (flush r)) = intervals r
  ∧ clearInterval_calls (runtime_of (flush r)) = clearInterval_calls r.
Proof.
  unfold flush. by destruct (flushing (this r) || (size r =? 0)).
Qed.

(** The state in which a flush is suspended. *)

Lemma started_read_new r r' : started r r' → read (batch (this r')) r' = [].
Proof.
  intros Hst. unfold read.
  by rewrite (started_batch _ _ Hst), (started_arrays _ _ Hst), lookup_insert_eq.
Qed.

Lemma started_frame l r r' :
  started r r' → l ∈ dom (arrays r) → read l r' = read l r.
Proof.
  intros Hst Hl. unfold read.
  rewrite (started_arrays _ _ Hst), lookup_insert_ne; [done |].
  apply not_eq_sym. by apply fresh_not_allocated.
Qed.

Lemma started_swapped r r' :
  started r r' → batch (this r) ∈ dom (arrays r) →
  batch (this r') ≠ batch (this r).
Proof.
  intros Hst Hb. rewrite (started_batch _ _ Hst).
  apply not_eq_sym. by apply fresh_not_allocated.
Qed.

(** [stop] is [flush] once the timer is cancelled, and cancelling the timer
    does not touch the buffer. *)
Lemma cancel_timer_buffer r :
  arrays (cancel_timer r) = arrays r
  ∧ batch (this (cancel_timer r)) = batch (this r)
  ∧ currentSizeBytes (this (cancel_timer r)) = currentSizeBytes (this r)
  ∧ flushing (this (cancel_timer r)) = flushing (this r)
  ∧ config (this (cancel_timer r)) = config (this r)
  ∧ onFlush_calls (cancel_timer r) = onFlush_calls r
  ∧ in_flight (cancel_timer r) = in_flight r.
Proof. unfold cancel_timer. by destruct (timer (this r)). Qed.

Lemma cancel_timer_read l r : read l (cancel_timer r) = read l r.
Proof. unfold read. by destruct (cancel_timer_buffer r) as (-> & _). Qed.

Lemma started_cancel_timer r r' : started (cancel_timer r) r' → started r r'.
Proof.
  destruct (cancel_timer_buffer r) as (Ha & Hb & Hs & Hf & Hc & Hk & Hp).
  intros [H1 H2 H3 H4 H5 H6 H7]. rewrite ?Ha, ?Hb, ?Hc, ?Hk, ?Hp in *. by split.
Qed.

(** ** The invariant *)

Lemma wf_new cfg : wf (new_BatchAccumulator cfg).
Proof.
  split; simpl.
  - rewrite dom_insert_L. apply elem_of_union_l. by apply elem_of_singleton.
  - intros l Hl. by apply elem_of_nil in Hl.
  - unfold read; simpl. by rewrite lookup_insert_eq.
  - by left.
  - apply union_empty_r_L.
Qed.

Lemma wf_add log r : wf r → wf (add log r).2.
Proof.
  intros [Hb Hc Hs Hl Ht]. split; try done.
  - simpl. by rewrite dom_alter_L.
  - intros l Hin. simpl. rewrite dom_alter_L. by apply Hc.
  - change (batch (this (add log r).2)) with (batch (this r)).
    rewrite read_add, total_size_app by done. simpl. rewrite Hs. lia.
Qed.

Lemma wf_started r r' : wf r → flushing (this r) = false → started r r' →
  intervals r' = intervals r → timer (this r') = timer (this r) → wf r'.
Proof.
  intros [Hb Hc Hs Hl Ht] Hf Hst Hi Htm.
  destruct Hst as [Hb' Ha' Hs' Hf' _ Hc' Hp'].
  split.
  - rewrite Hb', Ha', dom_insert_L. apply elem_of_union_l. by apply elem_of_singleton.
  - intros l. rewrite Hc', Hb', Ha', dom_insert_L. intros [Hin | Hin]%elem_of_app.
    + destruct (Hc l Hin) as [Hd _].
      split; [by apply elem_of_union_r | by apply fresh_not_allocated].
    + apply list_elem_of_singleton in Hin. subst l.
      split; [by apply elem_of_union_r | by apply fresh_not_allocated].
  - unfold read. by rewrite Hs', Ha', Hb', lookup_insert_eq.
  - right. split; [| done]. rewrite Hp'.
    destruct Hl as [[-> _] | [_ Hl]]; [by eexists | congruence].
  - by rewrite Hi, Htm.
Qed.

Lemma wf_flush r : wf r → wf (runtime_of (flush r)).
Proof.
  intros Hwf. destruct (flush_timer r) as (Ht & Hi & _). revert Ht Hi.
  destruct (flush_spec r) as [_ | r' Hf _ Hst]; simpl; [done |].
  intros Ht Hi. by apply (wf_started r).
Qed.

Lemma wf_settle i o r :
  wf r → is_Some (in_flight r !! i) →
  wf (flush_resume o (with_in_flight (delete i (in_flight r)) r)).2
  ∧ delete i (in_flight r) = [].
Proof.
  intros [Hb Hc Hs Hl Ht] [b Hi].
  assert (delete i (in_flight r) = []) as Hdel.
  { destruct Hl as [[Hnil _] | [[b' Hone] _]].
    - by rewrite Hnil in Hi.
    - rewrite Hone in Hi |- *. by destruct i as [|[|i]]. }
  split; [| done].
  unfold flush_resume. destruct o; (split; simpl; try done; left; by rewrite Hdel).
Qed.

Lemma wf_cancel_timer r : wf r → wf (cancel_timer r).
Proof.
  intros Hwf. unfold cancel_timer. destruct (timer (this r)) as [h|] eqn:Ht; [| done].
  destruct Hwf as [Hb Hc Hs Hl Hi]. split; simpl; try done.
  rewrite Hi, Ht. apply difference_diag_L.
Qed.

Lemma wf_stop r : wf r → wf (runtime_of (stop r)).
Proof. intros Hwf. by apply wf_flush, wf_cancel_timer. Qed.

Lemma wf_step e r r' : wf r → step e r = Some r' → wf r'.
Proof.
  intros Hwf. destruct e as [log | | h | i o |]; simpl.
  - intros [= <-]. by apply wf_add.
  - intros [= <-]. by apply wf_flush.
  - case_decide; [| done]. intros [= <-]. by apply wf_flush.
  - destruct (in_flight r !! i) eqn:Hi; [| done]. intros [= <-].
    apply wf_settle; [done | by eexists].
  - intros [= <-]. by apply wf_stop.
Qed.

Lemma wf_run es r r' : wf r → run es r = Some r' → wf r'.
Proof.
  revert r. induction es as [|e es IH]; intros r Hwf; simpl.
  - by intros [= <-].
  - destruct (step e r) as [r1|] eqn:He; [| done].
    apply IH. by eapply wf_step.
Qed.

Lemma wf_reachable cfg r : reachable cfg r → wf r.
Proof. intros [es Hes]. eapply wf_run; [apply wf_new | done]. Qed.

Lemma run_app es1 es2 r : run (es1 ++ es2) r = run es1 r ≫= run es2.
Proof.
  revert r. induction es1 as [|e es1 IH]; intros r; simpl; [done |].
  destruct (step e r); simpl; [apply IH | done].
Qed.

Lemma reachable_run cfg es r r' :
  reachable cfg r → run es r = Some r' → reachable cfg r'.
Proof.
  intros [es0 Hes0] Hes. exists (es0 ++ es). by rewrite run_app, Hes0.
Qed.

(** ** What one event does *)

(** An event either makes no call of [onFlush], or it is a call of [flush]
    (direct, from the timer or from [stop]) that passes the guard. *)
Lemma step_spec e r r' :
  wf r → step e r = Some r' →
  quiet e r r'
  ∨ is_add e = false ∧ flushing (this r) = false
    ∧ read (batch (this r)) r ≠ [] ∧ started r r'.
Proof.
  intros Hwf.
  assert (∀ r0, quiet EvFlush r0 (runtime_of (flush r0))
                ∨ flushing (this r0) = false ∧ read (batch (this r0)) r0 ≠ []
                  ∧ started r0 (runtime_of (flush r0))) as Hflush.
  { intros r0. destruct (flush_spec r0) as [_ | r1 Hf Hne Hst]; simpl; [left | by right].
    split; try done. by rewrite app_nil_r. simpl. lia. }
  destruct e as [log | | h | i o |]; simpl.
  - intros [= <-]. left. split; try done.
    + apply read_add, Hwf.
    + intros l Hl. by apply read_add_ne.
    + simpl. lia.
  - intros [= <-]. destruct (Hflush r) as [Hq | Hgo]; [by left | by right].
  - case_decide; [| done]. intros [= <-].
    destruct (Hflush r) as [[H1 H2 H3 H4 H5 H6] | Hgo]; [left; by split | by right].
  - destruct (in_flight r !! i); [| done]. intros [= <-]. left.
    destruct o; (split; simpl; try done; [by rewrite app_nil_r | lia]).
  - intros [= <-]. unfold stop.
    destruct (cancel_timer_buffer r) as (Ha & Hb & Hs & Hf & Hc & Hk & Hp).
    destruct (Hflush (cancel_timer r)) as [[H1 H2 H3 H4 H5 H6] | (H1 & H2 & H3)].
    + left. rewrite ?Hb, ?Hs, ?Hc, ?Hk, ?cancel_timer_read in *. split; try done.
      intros l Hl. rewrite H5 by done. apply cancel_timer_read.
    + right. rewrite ?Hb, ?Hf, ?cancel_timer_read in *.
      split; [done |]. split; [done |]. split; [done |]. by apply started_cancel_timer.
Qed.

(** ** Runs of events *)

Lemma step_calls_length e r r' :
  wf r → step e r = Some r' →
  (length (onFlush_calls r) ≤ length (onFlush_calls r'))%nat
  ∧ ((length (onFlush_calls r') ≤ length (onFlush_calls r))%nat → quiet e r r').
Proof.
  intros Hwf Hstep.
  destruct (step_spec e r r' Hwf Hstep) as [Hq | (_ & _ & _ & Hst)].
  - by rewrite (quiet_calls _ _ _ _ Hq).
  - rewrite (started_calls _ _ Hst), length_app. simpl. split; lia.
Qed.

Lemma run_calls_length es r r' :
  wf r → run es r = Some r' →
  (length (onFlush_calls r) ≤ length (onFlush_calls r'))%nat.
Proof.
  revert r. induction es as [|e es IH]; intros r Hwf; simpl.
  - by intros [= <-].
  - destruct (step e r) as [r1|] eqn:Hstep; [| done]. intros Hrun.
    destruct (step_calls_length e r r1 Hwf Hstep) as [H1 _].
    pose proof (IH r1 (wf_step e r r1 Hwf Hstep) Hrun). lia.
Qed.

(** A run that makes no call of [onFlush] keeps the buffer object and
    appends to it the records it adds, in order. *)
Lemma run_quiet es r r' :
  wf r → run es r = Some r' → onFlush_calls r' = onFlush_calls r →
  batch (this r') = batch (this r)
  ∧ read (batch (this r')) r' = read (batch (this r)) r ++ adds_of es.
Proof.
  revert r. induction es as [|e es IH]; intros r Hwf; simpl.
  - intros [= <-] _. by rewrite app_nil_r.
  - destruct (step e r) as [r1|] eqn:Hstep; [| done]. intros Hrun Hc.
    pose proof (wf_step e r r1 Hwf Hstep) as Hwf1.
    destruct (step_calls_length e r r1 Hwf Hstep) as [_ Hq].
    pose proof (run_calls_length es r1 r' Hwf1 Hrun) as Hlen. rewrite Hc in Hlen.
    destruct (Hq Hlen) as [Hb1 Hc1 _ Hr1 _ _].
    destruct (IH r1 Hwf1 Hrun) as [Hb2 Hr2]; [by rewrite Hc, Hc1 |].
    split; [by rewrite Hb2 |].
    rewrite Hr2, Hb1, Hr1, <- app_assoc. f_equal. by destruct e.
Qed.

(** With an empty buffer, events other than [add] make no call of [onFlush]
    and leave the buffer empty. *)
Lemma run_empty_buffer es r r' :
  wf r → Forall (λ e, is_add e = false) es → read (batch (this r)) r = [] →
  run es r = Some r' →
  onFlush_calls r' = onFlush_calls r
  ∧ batch (this r') = batch (this r)
  ∧ read (batch (this r')) r' = [].
Proof.
  intros Hwf Hes. revert r Hwf.
  induction Hes as [|e es He Hes IH]; intros r Hwf Hempty; simpl.
  - by intros [= <-].
  - destruct (step e r) as [r1|] eqn:Hstep; [| done]. intros Hrun.
    destruct (step_spec e r r1 Hwf Hstep) as [Hq | (_ & _ & Hne & _)]; [| done].
    destruct Hq as [Hb1 Hc1 _ Hr1 _ _].
    assert (read (batch (this r1)) r1 = []) as Hempty1.
    { rewrite Hb1, Hr1, Hempty. by destruct e. }
    destruct (IH r1 (wf_step e r r1 Hwf Hstep) Hempty1 Hrun) as (Hc2 & Hb2 & Hr2).
    split; [congruence |]. split; [congruence | done].
Qed.

(** The arrays handed to [onFlush] are never written again. *)
Lemma step_delivered_frame e r r' l :
  wf r → l ∈ onFlush_calls r → step e r = Some r' →
  read l r' = read l r ∧ l ∈ onFlush_calls r'.
Proof.
  intros Hwf Hin Hstep. destruct (wf_calls _ r Hwf l Hin) as [Hd Hne].
  destruct (step_spec e r r' Hwf Hstep) as [Hq | (_ & _ & _ & Hst)].
  - split; [by apply (quiet_frame _ _ _ _ Hq) |].
    by rewrite (quiet_calls _ _ _ _ Hq).
  - split; [by apply (started_frame l r r') |].
    rewrite (started_calls _ _ Hst). apply elem_of_app. by left.
Qed.

Lemma run_delivered_frame es r r' l :
  wf r → l ∈ onFlush_calls r → run es r = Some r' →
  read l r' = read l r ∧ l ∈ onFlush_calls r'.
Proof.
  revert r. induction es as [|e es IH]; intros r Hwf Hin; simpl.
  - by intros [= <-].
  - destruct (step e r) as [r1|] eqn:Hstep; [| done]. intros Hrun.
    destruct (step_delivered_frame e r r1 l Hwf Hin Hstep) as [H1 Hin1].
    destruct (IH r1 (wf_step e r r1 Hwf Hstep) Hin1 Hrun) as [H2 Hin2].
    by rewrite H2, H1.
Qed.

(** Adding a sequence of records touches nothing but the buffer and the size
    counter. *)
Lemma run_adds logs r :
  wf r →
  ∃ r', run (EvAdd <$> logs) r = Some r'
        ∧ read (batch (this r')) r' = read (batch (this r)) r ++ logs
        ∧ this r' = set_currentSizeBytes
                      (currentSizeBytes (this r) + total_size logs) (this r)
        ∧ intervals r' = intervals r
        ∧ onFlush_calls r' = onFlush_calls r
        ∧ in_flight r' = in_flight r
        ∧ clearInterval_calls r' = clearInterval_calls r.
Proof.
  revert r. induction logs as [|log logs IH]; intros r Hwf; simpl.
  - exists r. rewrite app_nil_r, Z.add_0_r. by destruct r as [? [] ? ? ? ? ?].
  - destruct (IH (add log r).2 (wf_add log r Hwf))
      as (r' & Hrun & Hread & Hthis & Hi & Hc & Hp & Hcl).
    exists r'. split; [done |]. rewrite Hread, Hthis, Hi, Hc, Hp, Hcl.
    change (batch (this (add log r).2)) with (batch (this r)).
    rewrite read_add, <- app_assoc by apply Hwf.
    split; [done |]. split; [| done].
    unfold set_currentSizeBytes. simpl. f_equal. lia.
Qed.

(** With no flush in flight and a non-empty buffer, [flush] and [stop] hand
    the whole buffer to [onFlush]. *)
Lemma flush_drains r :
  wf r → flushing (this r) = false → read (batch (this r)) r ≠ [] →
  ∃ r', flush r = Awaiting r' (batch (this r))
        ∧ started r r'
        ∧ read (batch (this r)) r' = read (batch (this r)) r
        ∧ read (batch (this r')) r' = []
        ∧ in_flight r' = [batch (this r)].
Proof.
  intros Hwf Hf Hne. destruct (flush_proceeds r Hf Hne) as (r' & Hfl & Hst).
  exists r'. split; [done |]. split; [done |].
  split; [apply (started_frame _ r r' Hst), Hwf |].
  split; [by apply (started_read_new r) |].
  rewrite (started_in_flight _ _ Hst).
  by destruct (wf_latch _ r Hwf) as [[-> _] | [_ ?]]; [| congruence].
Qed.

Lemma stop_drains r :
  wf r → flushing (this r) = false → read (batch (this r)) r ≠ [] →
  ∃ r', stop r = Awaiting r' (batch (this r))
        ∧ started r r'
        ∧ read (batch (this r)) r' = read (batch (this r)) r
        ∧ read (batch (this r')) r' = []
        ∧ in_flight r' = [batch (this r)].
Proof.
  intros Hwf Hf Hne. unfold stop.
  destruct (cancel_timer_buffer r) as (_ & Hb & _ & Hfc & _).
  destruct (flush_drains (cancel_timer r)) as (r' & Hfl & Hst & Hr & He & Hp).
  { by apply wf_cancel_timer. }
  { by rewrite Hfc. }
  { by rewrite Hb, cancel_timer_read. }
  rewrite Hb, ?cancel_timer_read in *.
  exists r'. split; [done |]. split; [by apply started_cancel_timer | done].
Qed.

(** * The accumulator: properties *)

(** C1.  In every reachable state at most one [onFlush] promise is pending.
    A call of [flush] made while [flushing] is set or while the buffer is
    empty returns at once with the runtime untouched: no call of [onFlush], no
    change to the buffer, the size counter or the latch.  Hence, when a
    non-empty batch is buffered and no flush is in flight, a call of [flush]
    followed by any sequence of further events other than [add] (calls of
    [flush], timer ticks, calls of [stop], the delivery settling, in any
    order) makes exactly one call of [onFlush], for that batch, and leaves the
    buffer empty. *)
Theorem flush_is_exclusive cfg r :
  reachable cfg r →
  (length (in_flight r) ≤ 1)%nat
  ∧ (flushing (this r) = true ∨ read (batch (this r)) r = [] →
     flush r = Returned r)
  ∧ (flushing (this r) = false → read (batch (this r)) r ≠ [] →
     ∀ es r', Forall (λ e, is_add e = false) es →
       run (EvFlush :: es) r = Some r' →
       onFlush_calls r' = onFlush_calls r ++ [batch (this r)]
       ∧ read (batch (this r)) r' = read (batch (this r)) r
       ∧ read (batch (this r')) r' = []).
Proof.
  intros Hreach. pose proof (wf_reachable cfg r Hreach) as Hwf.
  split; [| split].
  - destruct (wf_latch _ r Hwf) as [[-> _] | [[b ->] _]]; simpl; lia.
  - apply flush_guard.
  - intros Hf Hne es r' Hes. simpl.
    destruct (flush_drains r Hwf Hf Hne) as (r1 & Hfl & Hst & Hold & Hnew & _).
    pose proof (wf_flush r Hwf) as Hwf1. rewrite Hfl in Hwf1 |- *. simpl in *.
    intros Hrun.
    destruct (run_empty_buffer es r1 r' Hwf1 Hes Hnew Hrun) as (Hc & _ & Hempty).
    split; [by rewrite Hc, (started_calls _ _ Hst) |]. split; [| done].
    destruct (run_delivered_frame es r1 r' (batch (this r)) Hwf1) as [-> _]; try done.
    rewrite (started_calls _ _ Hst). apply elem_of_app. right.
    by apply list_elem_of_singleton.
Qed.

(** C2.  When [flush] passes its guard, the state in which it is suspended
    (the first state any other code can see) already has a new, empty array as
    buffer and a size counter of 0; the array handed to [onFlush] is the
    previous buffer object, holding all the records that were buffered.
    Whatever happens afterwards that array is never written again, and the
    records added while the delivery is in flight make up the new buffer. *)
Theorem flush_swaps_before_delivery cfg r r' b :
  reachable cfg r → flush r = Awaiting r' b →
  b = batch (this r)
  ∧ read b r' = read (batch (this r)) r
  ∧ last (onFlush_calls r') = Some b
  ∧ batch (this r') ≠ b
  ∧ read (batch (this r')) r' = []
  ∧ currentSizeBytes (this r') = 0
  ∧ (∀ es r'', run es r' = Some r'' → read b r'' = read (batch (this r)) r)
  ∧ (∀ logs, ∃ r'', run (EvAdd <$> logs) r' = Some r''
                    ∧ read (batch (this r'')) r'' = logs
                    ∧ read b r'' = read (batch (this r)) r).
Proof.
  intros Hreach Hfl. pose proof (wf_reachable cfg r Hreach) as Hwf.
  pose proof (wf_flush r Hwf) as Hwf'. rewrite Hfl in Hwf'. simpl in Hwf'.
  destruct (flush_spec r) as [_ | r1 Hf Hne Hst]; [done |].
  injection Hfl as -> <-.
  assert (read (batch (this r)) r' = read (batch (this r)) r) as Hold
    by apply (started_frame _ r r' Hst), Hwf.
  pose proof (started_read_new r r' Hst) as Hnew.
  assert (batch (this r) ∈ onFlush_calls r') as Hin.
  { rewrite (started_calls _ _ Hst). apply elem_of_app. right.
    by apply list_elem_of_singleton. }
  split; [done |]. split; [done |].
  split; [by rewrite (started_calls _ _ Hst), last_snoc |].
  split; [apply (started_swapped r r' Hst), Hwf |]. split; [done |].
  split; [apply (started_size _ _ Hst) |]. split.
  - intros es r'' Hrun.
    by destruct (run_delivered_frame es r' r'' _ Hwf' Hin Hrun) as [-> _].
  - intros logs. destruct (run_adds logs r' Hwf') as (r'' & Hrun & Hread & _).
    exists r''. split; [done |]. split; [by rewrite Hread, Hnew |].
    by destruct (run_delivered_frame _ r' r'' _ Hwf' Hin Hrun) as [-> _].
Qed.

(** C3.  However the promise of [onFlush] settles while a flush is suspended
    on it, fulfilled or rejected, the flush resumes and ends normally; when
    the promise is rejected it reports the reason with [console.error], and
    when it is fulfilled it reports nothing.  In both cases the latch is
    cleared afterwards, no promise is pending, [onFlush] has not been called
    again, and the buffer is the one installed by the swap: the records of a
    failed batch are not put back.  The next records added are then handed to
    [onFlush] by the next call of [flush], together with what the buffer
    already held. *)
Theorem flush_contains_delivery_failure cfg r i b o :
  reachable cfg r → in_flight r !! i = Some b →
  (∀ o r0, (@flush_resume Log o r0).1 = Normal)
  ∧ ∃ r', step (EvSettle i o) r = Some r'
      ∧ flushing (this r') = false
      ∧ in_flight r' = []
      ∧ console_errors r'
        = console_errors r
            ++ match o with Rejected reason => [reason] | Fulfilled => [] end
      ∧ onFlush_calls r' = onFlush_calls r
      ∧ batch (this r') = batch (this r)
      ∧ read (batch (this r')) r' = read (batch (this r)) r
      ∧ currentSizeBytes (this r') = currentSizeBytes (this r)
      ∧ ∀ log logs, ∃ r1 r2,
          run (EvAdd <$> (log :: logs)) r' = Some r1
          ∧ flush r1 = Awaiting r2 (batch (this r1))
          ∧ read (batch (this r1)) r2 = read (batch (this r)) r ++ log :: logs
          ∧ onFlush_calls r2 = onFlush_calls r ++ [batch (this r1)].
Proof.
  intros Hreach Hi. pose proof (wf_reachable cfg r Hreach) as Hwf.
  split; [by intros [|?] r0 |].
  set (r' := (flush_resume o (with_in_flight (delete i (in_flight r)) r)).2).
  destruct (wf_settle i o r Hwf) as [Hwf' Hdel]; [by eexists |].
  fold r' in Hwf'.
  assert (read (batch (this r')) r' = read (batch (this r)) r) as Hsame
    by (by destruct o).
  assert (onFlush_calls r' = onFlush_calls r) as Hcalls by (by destruct o).
  assert (flushing (this r') = false) as Hlatch by (by destruct o).
  exists r'. split; [simpl; by rewrite Hi |].
  split; [done |]. split; [destruct o; simpl; by rewrite Hdel |].
  split; [destruct o; simpl; [by rewrite app_nil_r | done] |].
  split; [done |]. split; [by destruct o |]. split; [done |].
  split; [by destruct o |].
  intros log logs.
  destruct (run_adds (log :: logs) r' Hwf') as (r1 & Hrun & Hread & Hthis & _ & Hc1 & _).
  destruct (flush_drains r1) as (r2 & Hfl & Hst & Hold & _).
  { by eapply wf_run. }
  { rewrite Hthis. exact Hlatch. }
  { rewrite Hread. by destruct (read (batch (this r')) r'). }
  exists r1, r2. split; [done |]. split; [done |].
  split; [by rewrite Hold, Hread, Hsame |].
  by rewrite (started_calls _ _ Hst), Hc1, Hcalls.
Qed.

Lemma stop_clears_timer r :
  timer (this (runtime_of (stop r))) = None
  ∧ (timer (this r) = None →
     clearInterval_calls (runtime_of (stop r)) = clearInterval_calls r).
Proof.
  unfold stop. destruct (flush_timer (cancel_timer r)) as (-> & _ & ->).
  unfold cancel_timer. by destruct (timer (this r)) eqn:Ht.
Qed.

(** C4, as amended.  [stop] cancels the periodic timer in every state, so
    that no tick can fire any more, and starts the final flush.  After K
    records have been added to a new accumulator and nothing else has
    happened, the records handed to [onFlush] once [stop] has been called are
    exactly the K records, in the order they were added, and the buffer is
    empty.  With K = 0 the final flush is the no-op of an empty buffer: [stop]
    returns at once and makes no call of [onFlush].  With K of 1 or more,
    [stop] is suspended on one call of [onFlush], whose argument holds all the
    added records; it ends only when that promise settles, and then ends
    normally whatever the outcome, with no further call of [onFlush] and the
    delivered array unchanged. *)
Theorem stop_drains_buffer cfg logs :
  (∀ r, reachable cfg r →
     timer (this (runtime_of (stop r))) = None
     ∧ intervals (runtime_of (stop r)) = ∅
     ∧ ∀ h, step (EvTick h) (runtime_of (stop r)) = None)
  ∧ ∃ r0 h,
      run (EvAdd <$> logs) (new_BatchAccumulator cfg) = Some r0
      ∧ timer (this r0) = Some h
      ∧ clearInterval_calls (runtime_of (stop r0)) = [h]
      ∧ read (batch (this (runtime_of (stop r0)))) (runtime_of (stop r0)) = []
      ∧ delivered (runtime_of (stop r0)) = logs
      ∧ (logs = [] →
         stop r0 = Returned (cancel_timer r0)
         ∧ onFlush_calls (cancel_timer r0) = [])
      ∧ (logs ≠ [] →
         ∃ r1 b,
           stop r0 = Awaiting r1 b
           ∧ onFlush_calls r1 = [b]
           ∧ read b r1 = logs
           ∧ ∀ o, ∃ r2,
               step (EvSettle 0 o) r1 = Some r2
               ∧ stop_resume o (with_in_flight [] r1) = (Normal, r2)
               ∧ flushing (this r2) = false
               ∧ onFlush_calls r2 = [b]
               ∧ read b r2 = logs
               ∧ read (batch (this r2)) r2 = []).
Proof.
  split.
  { intros r Hreach. pose proof (wf_stop r (wf_reachable cfg r Hreach)) as Hwf.
    assert (timer (this (runtime_of (stop r))) = None) as Ht
      by apply stop_clears_timer.
    assert (intervals (runtime_of (stop r)) = ∅) as Hi
      by (by rewrite (wf_timer _ _ Hwf), Ht).
    split; [done |]. split; [done |].
    intros h. simpl. rewrite decide_False; [done |].
    rewrite Hi. apply not_elem_of_empty. }
  destruct (run_adds logs _ (wf_new cfg))
    as (r0 & Hrun & Hread & Hthis & Hi0 & Hc0 & _ & Hcl0).
  assert (wf r0) as Hwf0 by (eapply wf_run; [apply wf_new | done]).
  change (read _ (new_BatchAccumulator cfg)) with (@nil Log) in Hread.
  simpl in Hread, Hc0, Hcl0.
  assert (timer (this r0) = Some (fresh (∅ : gset handle))) as Ht0 by by rewrite Hthis.
  assert (flushing (this r0) = false) as Hf0 by by rewrite Hthis.
  destruct (flush_timer (cancel_timer r0)) as (_ & _ & Hcl1).
  fold (stop r0) in Hcl1.
  assert (clearInterval_calls (cancel_timer r0) = [fresh (∅ : gset handle)]) as Hcl.
  { unfold cancel_timer. rewrite Ht0. simpl. by rewrite Hcl0. }
  destruct (cancel_timer_buffer r0) as (_ & Hb & _ & Hfc & _ & Hcc & _).
  exists r0, (fresh (∅ : gset handle)).
  split; [done |]. split; [done |]. split; [by rewrite Hcl1 |].
  destruct logs as [|log logs].
  - assert (stop r0 = Returned (cancel_timer r0)) as Hstop.
    { unfold stop. apply flush_guard. right. by rewrite Hb, cancel_timer_read. }
    rewrite Hstop. simpl.
    split; [by rewrite Hb, cancel_timer_read |].
    split; [unfold delivered; by rewrite Hcc, Hc0 |].
    split; [intros _; split; [done | by rewrite Hcc] | done].
  - destruct (stop_drains r0 Hwf0 Hf0) as (r1 & Hstop & Hst & Hold & Hnew & Hp1).
    { by rewrite Hread. }
    assert (onFlush_calls r1 = [batch (this r0)]) as Hc1.
    { by rewrite (started_calls _ _ Hst), Hc0. }
    rewrite Hstop. simpl.
    split; [done |].
    split; [unfold delivered; rewrite Hc1; simpl; by rewrite Hold, Hread, app_nil_r |].
    split; [done |]. intros _.
    exists r1, (batch (this r0)).
    split; [done |]. split; [done |]. split; [by rewrite Hold, Hread |].
    intros o. eexists. split; [simpl; rewrite Hp1; simpl; reflexivity |].
    unfold stop_resume, flush_resume.
    destruct o; (split; [done |]); simpl; rewrite <- Hread, <- Hold; by repeat split.
Qed.

(** ** The byte threshold *)

Lemma needsFlush_Z r :
  needsFlush r = true
  ↔ 4 * maxBatchSizeBytes (config (this r)) ≤ 5 * currentSizeBytes (this r).
Proof.
  unfold needsFlush. rewrite Qle_bool_iff.
  unfold Qle, Qmult, inject_Z. simpl. lia.
Qed.

Lemma needsFlush_add_mono log r :
  needsFlush r = true → needsFlush (add log r).2 = true.
Proof.
  rewrite !needsFlush_Z. simpl.
  pose proof (estimateLogSize_nonneg log). lia.
Qed.

Lemma add_results_true logs r :
  needsFlush r = true →
  add_results JSON_stringify logs r = replicate (length logs) true.
Proof.
  revert r. induction logs as [|x xs IH]; intros r Hr; simpl; [done |].
  pose proof (needsFlush_add_mono x r Hr) as Hx.
  rewrite IH by done. f_equal. exact Hx.
Qed.

Lemma add_results_shape logs r :
  ∃ k, (k ≤ length logs)%nat
       ∧ add_results JSON_stringify logs r
         = replicate k false ++ replicate (length logs - k) true.
Proof.
  revert r. induction logs as [|x xs IH]; intros r.
  - by exists 0%nat.
  - change (add_results JSON_stringify (x :: xs) r)
      with ((add x r).1 :: add_results JSON_stringify xs (add x r).2).
    destruct (add x r).1 eqn:Hx.
    + exists 0%nat. split; [lia |]. rewrite Nat.sub_0_r.
      by rewrite add_results_true.
    + destruct (IH (add x r).2) as (k & Hk & ->).
      exists (S k). split; [simpl; lia | done].
Qed.

(** The test in double precision and the exact test agree: for the ceiling
    of [test/batch.test.js] and every size up to twice that ceiling, for the
    default ceiling of 2 MiB and the sizes around its threshold, and for every
    ceiling below 200 and every size up to it. *)
Lemma needsFlush_double_agrees :
  forallb (λ s, Bool.eqb (needsFlush_double 1024 s) (bool_decide (4 * 1024 ≤ 5 * s)))
    (seqZ 0 2049) = true
  ∧ forallb (λ s, Bool.eqb (needsFlush_double (2 * 1024 * 1024) s)
                    (bool_decide (4 * (2 * 1024 * 1024) ≤ 5 * s)))
      (seqZ 1677000 2000) = true
  ∧ forallb (λ m, forallb (λ s, Bool.eqb (needsFlush_double m s)
                                  (bool_decide (4 * m ≤ 5 * s)))
                    (seqZ 0 (m + 2)))
      (seqZ 0 200) = true.
Proof. split; [| split]; vm_compute; reflexivity. Qed.

(** C5.  [needsFlush] holds exactly when the size counter is at least 0.8
    times [maxBatchSizeBytes] (equivalently, when five times the counter is at
    least four times the ceiling), and [add] returns the value of [needsFlush]
    in the state it leaves.  Once the predicate holds it still holds after a
    further [add], and after any event that makes no call of [onFlush]; so
    the values returned by a run of successive [add]s are some [false]s
    followed only by [true]s. *)
Theorem needsFlush_threshold cfg r log logs :
  (needsFlush r = true
   ↔ (inject_Z (maxBatchSizeBytes (config (this r))) * 0.8
      <= inject_Z (currentSizeBytes (this r)))%Q)
  ∧ (needsFlush r = true
     ↔ 4 * maxBatchSizeBytes (config (this r)) ≤ 5 * currentSizeBytes (this r))
  ∧ (add log r).1 = needsFlush (add log r).2
  ∧ (needsFlush r = true → needsFlush (add log r).2 = true)
  ∧ (∀ e r', reachable cfg r → needsFlush r = true → step e r = Some r' →
             onFlush_calls r' = onFlush_calls r → needsFlush r' = true)
  ∧ ∃ k, (k ≤ length logs)%nat
         ∧ add_results JSON_stringify logs r
           = replicate k false ++ replicate (length logs - k) true.
Proof.
  split; [apply Qle_bool_iff |]. split; [apply needsFlush_Z |].
  split; [done |]. split; [apply needsFlush_add_mono |].
  split; [| apply add_results_shape].
  intros e r' Hreach Hn Hstep Hc.
  destruct (step_calls_length e r r' (wf_reachable cfg r Hreach) Hstep) as [_ Hq].
  destruct Hq as [_ _ Hcfg _ _ Hsize]; [by rewrite Hc |].
  apply needsFlush_Z. apply needsFlush_Z in Hn. rewrite Hcfg, Hsize.
  pose proof (total_size_nonneg (adds_of [e])). lia.
Qed.

(** C6.  In every reachable state the size counter is the sum of the
    estimated sizes of the buffered records.  [add] appends the record to the
    buffer and adds exactly its estimated size to the counter; in the state in
    which a proceeding [flush] is suspended, the buffer is empty and the
    counter is 0. *)
Theorem sizeBytes_is_sum_of_buffer cfg r :
  reachable cfg r →
  currentSizeBytes (this r) = total_size (read (batch (this r)) r)
  ∧ (∀ log,
       read (batch (this (add log r).2)) (add log r).2
       = read (batch (this r)) r ++ [log]
       ∧ currentSizeBytes (this (add log r).2)
         = currentSizeBytes (this r) + estimateLogSize log)
  ∧ (∀ r' b, flush r = Awaiting r' b →
             read (batch (this r')) r' = [] ∧ currentSizeBytes (this r') = 0).
Proof.
  intros Hreach. pose proof (wf_reachable cfg r Hreach) as Hwf.
  split; [apply Hwf |]. split.
  - intros log. split; [| done].
    change (batch (this (add log r).2)) with (batch (this r)).
    apply read_add, Hwf.
  - intros r' b Hfl. destruct (flush_spec r) as [_ | r1 _ _ Hst]; [done |].
    injection Hfl as -> _.
    split; [by apply (started_read_new r) | apply (started_size _ _ Hst)].
Qed.

(** C7.  Starting from an empty buffer, after any run of events in which no
    call of [onFlush] is made, the buffer holds exactly the records added by
    the run, in the order of the [add] calls.  The next [flush] that proceeds
    hands [onFlush] an array holding exactly that sequence, and [flush] does
    proceed when no delivery is in flight and at least one record was
    added. *)
Theorem batch_preserves_insertion_order cfg r es r1 :
  reachable cfg r → read (batch (this r)) r = [] →
  run es r = Some r1 → onFlush_calls r1 = onFlush_calls r →
  read (batch (this r1)) r1 = adds_of es
  ∧ (∀ r2 b, flush r1 = Awaiting r2 b →
             read b r2 = adds_of es ∧ last (onFlush_calls r2) = Some b)
  ∧ (flushing (this r1) = false → adds_of es ≠ [] →
     ∃ r2, flush r1 = Awaiting r2 (batch (this r1))).
Proof.
  intros Hreach Hempty Hrun Hc.
  pose proof (wf_reachable cfg r Hreach) as Hwf.
  pose proof (wf_run es r r1 Hwf Hrun) as Hwf1.
  destruct (run_quiet es r r1 Hwf Hrun Hc) as [Hb Hread].
  rewrite Hempty in Hread. simpl in Hread.
  split; [done |]. split.
  - intros r2 b Hfl. destruct (flush_spec r1) as [_ | r3 _ _ Hst]; [done |].
    injection Hfl as <- <-.
    split; [| by rewrite (started_calls _ _ Hst), last_snoc].
    rewrite <- Hread. apply (started_frame _ r1 r3 Hst), Hwf1.
  - intros Hf Hne. destruct (flush_proceeds r1) as (r2 & Hfl & _); [done | | by exists r2].
    by rewrite Hread.
Qed.

(** ** Calling [stop] again *)

Lemma step_keeps_timer_null e r r' :
  timer (this r) = None → step e r = Some r' → timer (this r') = None.
Proof.
  intros Ht. destruct e as [log | | h | i o |]; simpl.
  - by intros [= <-].
  - intros [= <-]. by destruct (flush_timer r) as (-> & _).
  - case_decide; [| done]. intros [= <-]. by destruct (flush_timer r) as (-> & _).
  - destruct (in_flight r !! i); [| done]. intros [= <-]. by destruct o.
  - intros [= <-]. apply stop_clears_timer.
Qed.

Lemma run_keeps_timer_null es r r' :
  timer (this r) = None → run es r = Some r' → timer (this r') = None.
Proof.
  revert r. induction es as [|e es IH]; intros r Ht; simpl.
  - by intros [= <-].
  - destruct (step e r) as [r1|] eqn:Hstep; [| done].
    apply IH. by eapply step_keeps_timer_null.
Qed.

Lemma stop_leaves_buffer_empty r :
  wf r → flushing (this r) = false →
  read (batch (this (runtime_of (stop r)))) (runtime_of (stop r)) = [].
Proof.
  intros Hwf Hf. destruct (read (batch (this r)) r) as [|x xs] eqn:Hb.
  - unfold stop. rewrite flush_guard.
    + simpl. destruct (cancel_timer_buffer r) as (_ & -> & _).
      by rewrite cancel_timer_read.
    + right. destruct (cancel_timer_buffer r) as (_ & -> & _).
      by rewrite cancel_timer_read.
  - destruct (stop_drains r Hwf Hf) as (r' & -> & _ & _ & Hnew & _); [| done].
    by rewrite Hb.
Qed.

Lemma stop_keeps_empty_buffer r :
  read (batch (this r)) r = [] →
  stop r = Returned (cancel_timer r)
  ∧ read (batch (this (cancel_timer r))) (cancel_timer r) = [].
Proof.
  intros Hb. destruct (cancel_timer_buffer r) as (_ & Hbc & _).
  assert (read (batch (this (cancel_timer r))) (cancel_timer r) = []) as He
    by (by rewrite Hbc, cancel_timer_read).
  split; [| done]. unfold stop. apply flush_guard. by right.
Qed.

(** Without a call of [add] the buffer keeps its records until a flush hands
    them over, and is empty from then on. *)
Lemma run_leftover es r r' :
  wf r → Forall (λ e, is_add e = false) es → run es r = Some r' →
  read (batch (this r')) r' = []
  ∨ read (batch (this r')) r' = read (batch (this r)) r.
Proof.
  intros Hwf Hes. revert r Hwf.
  induction Hes as [|e es He Hes IH]; intros r Hwf; simpl.
  - intros [= <-]. by right.
  - destruct (step e r) as [r1|] eqn:Hstep; [| done]. intros Hrun.
    pose proof (wf_step e r r1 Hwf Hstep) as Hwf1.
    destruct (step_spec e r r1 Hwf Hstep) as [Hq | (_ & _ & _ & Hst)].
    + destruct (IH r1 Hwf1 Hrun) as [-> | ->]; [by left |]. right.
      rewrite (quiet_batch _ _ _ _ Hq), (quiet_read _ _ _ _ Hq).
      destruct e; [done | by rewrite app_nil_r..].
    + left.
      by destruct (run_empty_buffer es r1 r' Hwf1 Hes (started_read_new r r1 Hst) Hrun)
        as (_ & _ & ->).
Qed.

(** C10, as amended.  After a first call of [stop], whatever events other
    than [add] follow it, a second call of [stop] finds [timer] null and makes
    no call of [clearInterval], and it ends normally however the delivery it
    may wait for settles.  The second call returns at once with the runtime
    untouched, so that it makes no call of [onFlush], unless the first [stop]
    was called while a flush was in flight and records were buffered.  In that
    one case the first [stop] leaves those records in the buffer, and a second
    [stop] that finds the buffer not empty and no flush in flight hands
    exactly those records to [onFlush]. *)
Theorem second_stop_after_clean_first_stop cfg r es r2 :
  reachable cfg r → Forall (λ e, is_add e = false) es →
  run (EvStop :: es) r = Some r2 →
  timer (this r2) = None
  ∧ clearInterval_calls (runtime_of (stop r2)) = clearInterval_calls r2
  ∧ (∀ o r0, (@stop_resume Log o r0).1 = Normal)
  ∧ (flushing (this r) = false ∨ read (batch (this r)) r = [] →
     stop r2 = Returned r2)
  ∧ (stop r2 = Returned r2
     ↔ flushing (this r2) = true ∨ read (batch (this r2)) r2 = [])
  ∧ (stop r2 ≠ Returned r2 →
     flushing (this r) = true
     ∧ read (batch (this r)) r ≠ []
     ∧ flushing (this r2) = false
     ∧ ∃ r3, stop r2 = Awaiting r3 (batch (this r2))
             ∧ onFlush_calls r3 = onFlush_calls r2 ++ [batch (this r2)]
             ∧ read (batch (this r2)) r3 = read (batch (this r)) r).
Proof.
  intros Hreach Hes Hrun. pose proof (wf_reachable cfg r Hreach) as Hwf.
  simpl in Hrun.
  pose proof (wf_run es _ r2 (wf_stop r Hwf) Hrun) as Hwf2.
  assert (timer (this r2) = None) as Ht2.
  { eapply run_keeps_timer_null; [| done]. apply stop_clears_timer. }
  assert (cancel_timer r2 = r2) as Hc2 by (unfold cancel_timer; by rewrite Ht2).
  assert (flushing (this r) = false ∨ read (batch (this r)) r = [] →
          read (batch (this r2)) r2 = []) as Hclean.
  { intros Hor.
    assert (read (batch (this (runtime_of (stop r)))) (runtime_of (stop r)) = [])
      as Hempty.
    { destruct Hor as [Hf | Hb]; [by apply stop_leaves_buffer_empty |].
      by destruct (stop_keeps_empty_buffer r Hb) as (-> & ?). }
    by destruct (run_empty_buffer es _ r2 (wf_stop r Hwf) Hes Hempty Hrun)
      as (_ & _ & ?). }
  assert (stop r2 = Returned r2
          ↔ flushing (this r2) = true ∨ read (batch (this r2)) r2 = []) as Hiff.
  { unfold stop. rewrite Hc2. split; [| apply flush_guard].
    intros Hret. destruct (flush_spec r2) as [Hg | r3 _ _ _]; [done | done]. }
  split; [done |]. split; [by apply stop_clears_timer |].
  split; [by intros [|?] r0 |].
  split; [intros Hor; apply Hiff; right; by apply Hclean |].
  split; [done |].
  intros Hnot.
  assert (flushing (this r2) = false) as Hf2.
  { destruct (flushing (this r2)) eqn:Hf; [| done].
    exfalso. apply Hnot, Hiff. by left. }
  assert (read (batch (this r2)) r2 ≠ []) as Hb2.
  { intros Hb. apply Hnot, Hiff. by right. }
  assert (flushing (this r) = true) as Hf.
  { destruct (flushing (this r)) eqn:Hf; [done |].
    exfalso. apply Hb2, Hclean. by left. }
  assert (read (batch (this r)) r ≠ []) as Hb.
  { intros Hb. apply Hb2, Hclean. by right. }
  split; [done |]. split; [done |]. split; [done |].
  assert (stop r = Returned (cancel_timer r)) as Hstop.
  { unfold stop. apply flush_guard. left.
    by destruct (cancel_timer_buffer r) as (_ & _ & _ & -> & _). }
  rewrite Hstop in Hrun. simpl in Hrun.
  destruct (run_leftover es _ r2 (wf_cancel_timer r Hwf) Hes Hrun) as [He | Hsame];
    [done |].
  destruct (cancel_timer_buffer r) as (_ & Hbc & _).
  rewrite Hbc, cancel_timer_read in Hsame.
  destruct (stop_drains r2 Hwf2 Hf2 Hb2) as (r3 & Hstop2 & Hst & Hold & _).
  exists r3. split; [done |]. split; [apply (started_calls _ _ Hst) |].
  by rewrite Hold.
Qed.

End BatchAccumulatorFacts.

(** * The transform: properties *)

Lemma LEVEL_TO_SEVERITY_lookup (key : string) :
  LEVEL_TO_SEVERITY !! key
  = if decide (key = "10") then Some 1
    else if decide (key = "20") then Some 2
    else if decide (key = "30") then Some 3
    else if decide (key = "40") then Some 4
    else if decide (key = "50") then Some 5
    else if decide (key = "60") then Some 6
    else None.
Proof.
  unfold LEVEL_TO_SEVERITY.
  repeat (case_decide; [by subst key |]).
  by rewrite !lookup_insert_ne, lookup_singleton_ne.
Qed.

(** ** The decimal digits of an integer *)




Lemma pretty_is (k z : Z) s : pretty z = s → pretty k = s ↔ k = z.
Proof. intros <-. split; [apply (inj pretty) | by intros ->]. Qed.

Lemma LEVEL_TO_SEVERITY_pretty (k : Z) :
  LEVEL_TO_SEVERITY !! pretty k
  = if decide (k = 10) then Some 1
    else if decide (k = 20) then Some 2
    else if decide (k = 30) then Some 3
    else if decide (k = 40) then Some 4
    else if decide (k = 50) then Some 5
    else if decide (k = 60) then Some 6
    else None.
Proof.
  rewrite LEVEL_TO_SEVERITY_lookup.
  pose proof (pretty_is k 10 "10" ltac:(by vm_compute)) as H10.
  pose proof (pretty_is k 20 "20" ltac:(by vm_compute)) as H20.
  pose proof (pretty_is k 30 "30" ltac:(by vm_compute)) as H30.
  pose proof (pretty_is k 40 "40" ltac:(by vm_compute)) as H40.
  pose proof (pretty_is k 50 "50" ltac:(by vm_compute)) as H50.
  pose proof (pretty_is k 60 "60" ltac:(by vm_compute)) as H60.
  repeat case_decide; try done; exfalso; tauto.
Qed.

(** The severity [transformLog] gives, by the property key of the level. *)
Lemma transformLog_severity Number_toString Object_toString pinoLog config key :
  ToPropertyKey Number_toString Object_toString (PinoLog.level pinoLog) = Some key →
  ∃ log, transformLog Number_toString Object_toString (Some pinoLog) config = Some log
         ∧ CoralogixLog.severity log = or_else (LEVEL_TO_SEVERITY_get key) 3.
Proof. intros Hkey. unfold transformLog. simpl. rewrite Hkey. simpl. by eexists. Qed.


Section TransformFacts.

Variable Number_toString : Q → string.
Variable Object_toString : string → option string.

Local Abbreviation ToPropertyKey := (ToPropertyKey Number_toString Object_toString).
Local Abbreviation transformLog := (transformLog Number_toString Object_toString).

Lemma severity_of_key key :
  (∀ n, LEVEL_TO_SEVERITY !! key = Some n → or_else (LEVEL_TO_SEVERITY_get key) 3 = Ordinal n)
  ∧ (LEVEL_TO_SEVERITY !! key = None → key ∉ Object_prototype →
     or_else (LEVEL_TO_SEVERITY_get key) 3 = Ordinal 3)
  ∧ (LEVEL_TO_SEVERITY !! key = None → key ∈ Object_prototype →
     or_else (LEVEL_TO_SEVERITY_get key) 3 = Inherited key).
Proof.
  unfold LEVEL_TO_SEVERITY_get. rewrite LEVEL_TO_SEVERITY_lookup.
  repeat (case_decide; [by repeat split; intros; simplify_eq |]).
  split; [done |]. split; intros _ Hin.
  - by rewrite bool_decide_eq_false_2.
  - by rewrite bool_decide_eq_true_2.
Qed.


End TransformFacts.

(** * The ingestion loop: properties *)

Section TransportFacts.

Variable Number_toString : Q → string.
Variable Object_toString : string → option string.
Variable JSON_stringify : CoralogixLog.t → string.
Variable JSON_parse : string → option (option PinoLog.t).
Variable opts : Options.t.

Local Abbreviation turn :=
  (loop_body Number_toString Object_toString JSON_stringify JSON_parse opts).
Local Abbreviation add := (add JSON_stringify).
Local Abbreviation step := (step JSON_stringify).

(** C8.  One turn of the loop on a record adds the transformed record and
    then calls [flush] exactly when [add] returned [true] and the number of
    buffered records is at least [batchSize].  When either condition fails,
    the turn makes no call of [onFlush]; in particular a buffer over the byte
    threshold but with fewer than [batchSize] records stays buffered, and with
    no flush in flight it is handed to [onFlush], whole, by the next tick of
    the interval or by [stop].  When both conditions hold and no flush is in
    flight, the turn hands the whole buffer to [onFlush]. *)
Theorem loop_flushes_on_both_thresholds obj v log r :
  let needsFlush := (add log r).1 in
  let r1 := (add log r).2 in
  let batchSize := batchSize (accumulator_config opts) in
  reachable JSON_stringify (accumulator_config opts) r →
  parse JSON_parse obj = Some v →
  transformLog Number_toString Object_toString v opts = Some log →
  (needsFlush = false ∨ size r1 < batchSize →
   turn obj r = Some (Returned r1) ∧ onFlush_calls r1 = onFlush_calls r)
  ∧ (needsFlush = true → size r1 < batchSize → flushing (this r) = false →
     (∀ h, h ∈ intervals r1 →
        ∃ r2, step (EvTick h) r1 = Some r2
              ∧ onFlush_calls r2 = onFlush_calls r ++ [batch (this r1)]
              ∧ read (batch (this r1)) r2 = read (batch (this r)) r ++ [log])
     ∧ ∃ r2, stop r1 = Awaiting r2 (batch (this r1))
             ∧ onFlush_calls r2 = onFlush_calls r ++ [batch (this r1)]
             ∧ read (batch (this r1)) r2 = read (batch (this r)) r ++ [log])
  ∧ (needsFlush = true → batchSize ≤ size r1 →
     turn obj r = Some (flush r1)
     ∧ (flushing (this r) = false →
        ∃ r2, turn obj r = Some (Awaiting r2 (batch (this r1)))
              ∧ onFlush_calls r2 = onFlush_calls r ++ [batch (this r1)]
              ∧ read (batch (this r1)) r2 = read (batch (this r)) r ++ [log])).
Proof.
  intros needs r1 bs Hreach Hparse Hlog.
  pose proof (wf_reachable _ _ r Hreach) as Hwf.
  assert (wf JSON_stringify r1) as Hwf1 by apply wf_add, Hwf.
  assert (read (batch (this r1)) r1 = read (batch (this r)) r ++ [log]) as Hread
    by apply (read_add JSON_stringify log r), Hwf.
  assert (read (batch (this r1)) r1 ≠ []) as Hne.
  { rewrite Hread. by destruct (read (batch (this r)) r). }
  assert (onFlush_calls r1 = onFlush_calls r) as Hcalls by done.
  assert (turn obj r
          = Some (if needs && (bs <=? size r1) then flush r1 else Returned r1))
    as Hturn by (unfold loop_body; by rewrite Hparse, Hlog).
  assert (flushing (this r1) = flushing (this r)) as Hfeq by done.
  clearbody r1 needs. rewrite <- Hfeq. clear Hfeq.
  split; [| split].
  - intros Hfail. split; [| done]. rewrite Hturn.
    destruct Hfail as [-> | Hlt]; [done |].
    apply Z.leb_gt in Hlt. rewrite Hlt. by rewrite andb_false_r.
  - intros Hn Hlt Hf. split.
    + intros h Hh.
      destruct (flush_drains _ r1 Hwf1 Hf Hne) as (r2 & Hfl & Hst & Hold & _).
      exists r2. simpl. rewrite decide_True by done. rewrite Hfl.
      by rewrite (started_calls _ _ Hst), Hold, Hread, Hcalls.
    + destruct (stop_drains _ r1 Hwf1 Hf Hne) as (r2 & Hstop & Hst & Hold & _).
      exists r2. by rewrite (started_calls _ _ Hst), Hold, Hread, Hcalls.
  - intros Hn Hge. apply Z.leb_le in Hge.
    assert (turn obj r = Some (flush r1)) as Heq by (by rewrite Hturn, Hn, Hge).
    split; [done |]. intros Hf.
    destruct (flush_drains _ r1 Hwf1 Hf Hne) as (r2 & Hfl & Hst & Hold & _).
    exists r2. by rewrite Heq, Hfl, (started_calls _ _ Hst), Hold, Hread, Hcalls.
Qed.

End TransportFacts.

(** * The properties on the sample runs *)

(** Closes a goal between closed terms by evaluating both sides. *)
Ltac by_evaluation := vm_compute; first [reflexivity | discriminate].

Lemma new_accumulator_reachable : reachable json_text test_config new_accumulator.
Proof. exists []. by_evaluation. Defined.

Lemma one_buffered_reachable : reachable json_text test_config one_buffered.
Proof. exists [EvAdd "{}"]. by_evaluation. Defined.

Lemma one_in_flight_reachable : reachable json_text test_config one_in_flight.
Proof. exists [EvAdd "{}"; EvFlush]. by_evaluation. Defined.

(** Three calls of [flush] in a row on one buffered record, as in the test
    "should prevent concurrent flushes": one call of [onFlush]. *)
Lemma flush_is_exclusive_witness :
  reachable json_text test_config one_buffered
  ∧ flushing (this one_buffered) = false
  ∧ read (batch (this one_buffered)) one_buffered ≠ []
  ∧ Forall (λ e, is_add e = false)
      [EvFlush; EvFlush; EvSettle 0 Fulfilled : Event string]
  ∧ run json_text [EvFlush; EvFlush; EvFlush; EvSettle 0 Fulfilled] one_buffered
    = Some one_delivered
  ∧ onFlush_calls one_delivered
    = onFlush_calls one_buffered ++ [batch (this one_buffered)]
  ∧ read (batch (this one_buffered)) one_delivered
    = read (batch (this one_buffered)) one_buffered
  ∧ read (batch (this one_delivered)) one_delivered = [].
Proof.
  assert (flushing (this one_buffered) = false) as Hf by by_evaluation.
  assert (read (batch (this one_buffered)) one_buffered ≠ []) as Hne by by_evaluation.
  assert (Forall (λ e, is_add e = false)
            [EvFlush; EvFlush; EvSettle 0 Fulfilled : Event string]) as Hes
    by (repeat constructor).
  assert (run json_text [EvFlush; EvFlush; EvFlush; EvSettle 0 Fulfilled] one_buffered
          = Some one_delivered) as Hrun by by_evaluation.
  split; [exact one_buffered_reachable |].
  split; [exact Hf |]. split; [exact Hne |]. split; [exact Hes |].
  split; [exact Hrun |].
  destruct (flush_is_exclusive json_text test_config one_buffered
              one_buffered_reachable) as (_ & _ & H).
  exact (H Hf Hne _ _ Hes Hrun).
Defined.

(** The first [flush] on one buffered record. *)
Lemma flush_swaps_before_delivery_witness :
  reachable json_text test_config one_buffered
  ∧ flush one_buffered = Awaiting one_in_flight 0%nat
  ∧ read 0%nat one_in_flight = read (batch (this one_buffered)) one_buffered
  ∧ last (onFlush_calls one_in_flight) = Some 0%nat
  ∧ batch (this one_in_flight) ≠ 0%nat
  ∧ read (batch (this one_in_flight)) one_in_flight = []
  ∧ currentSizeBytes (this one_in_flight) = 0.
Proof.
  assert (flush one_buffered = Awaiting one_in_flight 0%nat) as Hfl by by_evaluation.
  split; [exact one_buffered_reachable |]. split; [exact Hfl |].
  destruct (flush_swaps_before_delivery json_text test_config one_buffered
              one_in_flight 0%nat one_buffered_reachable Hfl)
    as (_ & H1 & H2 & H3 & H4 & H5 & _).
  split; [exact H1 |]. split; [exact H2 |]. split; [exact H3 |].
  split; [exact H4 | exact H5].
Defined.

(** The delivery of the first batch is fulfilled: the latch is released. *)
Lemma flush_contains_delivery_failure_witness :
  reachable json_text test_config one_in_flight
  ∧ in_flight one_in_flight !! 0%nat = Some 0%nat
  ∧ ∃ r', step json_text (EvSettle 0 Fulfilled) one_in_flight = Some r'
          ∧ flushing (this r') = false
          ∧ in_flight r' = []
          ∧ console_errors r' = console_errors one_in_flight ++ [].
Proof.
  assert (in_flight one_in_flight !! 0%nat = Some 0%nat) as Hi by by_evaluation.
  split; [exact one_in_flight_reachable |]. split; [exact Hi |].
  destruct (flush_contains_delivery_failure json_text test_config one_in_flight
              0%nat 0%nat Fulfilled one_in_flight_reachable Hi)
    as (_ & r' & H1 & H2 & H3 & H4 & _).
  exists r'. split; [exact H1 |]. split; [exact H2 |]. split; [exact H3 | exact H4].
Defined.

(** [stop] on three buffered records. *)
Lemma stop_drains_buffer_witness :
  ["{'n':1}"; "{'n':2}"; "{'n':3}"] ≠ []
  ∧ ∃ r0 r1 b,
      run json_text (EvAdd <$> ["{'n':1}"; "{'n':2}"; "{'n':3}"])
        (new_BatchAccumulator test_config) = Some r0
      ∧ stop r0 = Awaiting r1 b
      ∧ onFlush_calls r1 = [b]
      ∧ read b r1 = ["{'n':1}"; "{'n':2}"; "{'n':3}"]
      ∧ delivered (runtime_of (stop r0)) = ["{'n':1}"; "{'n':2}"; "{'n':3}"].
Proof.
  assert (["{'n':1}"; "{'n':2}"; "{'n':3}"] ≠ @nil string) as Hne by discriminate.
  split; [exact Hne |].
  destruct (stop_drains_buffer json_text test_config ["{'n':1}"; "{'n':2}"; "{'n':3}"])
    as (_ & r0 & h & Hrun & _ & _ & _ & Hd & _ & H).
  destruct (H Hne) as (r1 & b & Hstop & Hc & Hread & _).
  exists r0, r1, b. split; [exact Hrun |]. split; [exact Hstop |].
  split; [exact Hc |]. split; [exact Hread | exact Hd].
Defined.

(** C4, as stated, fails for K = 0.  [stop] on a new accumulator, to which
    no record has been added, cancels the timer and returns at once: the final
    flush finds the buffer empty and [onFlush] is not called, so that no batch
    is delivered, where the claim has exactly one. *)
Lemma stop_on_empty_buffer_delivers_nothing :
  run json_text (EvAdd <$> []) new_accumulator = Some new_accumulator
  ∧ stop new_accumulator = Returned (cancel_timer new_accumulator)
  ∧ onFlush_calls (runtime_of (stop new_accumulator)) = []
  ∧ length (onFlush_calls (runtime_of (stop new_accumulator))) ≠ 1%nat
  ∧ timer (this (runtime_of (stop new_accumulator))) = None.
Proof.
  split; [by_evaluation |]. split; [by_evaluation |]. split; [by_evaluation |].
  split; by_evaluation.
Qed.

(** One more record on a buffer that is already over the threshold. *)
Lemma needsFlush_threshold_witness :
  needsFlush nine_bytes = true
  ∧ needsFlush (add json_text "{}" nine_bytes).2 = true.
Proof.
  assert (needsFlush nine_bytes = true) as Hn by by_evaluation.
  split; [exact Hn |].
  destruct (needsFlush_threshold json_text small_config nine_bytes "{}" [])
    as (_ & _ & _ & H & _).
  exact (H Hn).
Defined.

(** The size counter after one record. *)
Lemma sizeBytes_is_sum_of_buffer_witness :
  reachable json_text test_config one_buffered
  ∧ currentSizeBytes (this one_buffered)
    = total_size json_text (read (batch (this one_buffered)) one_buffered).
Proof.
  split; [exact one_buffered_reachable |].
  destruct (sizeBytes_is_sum_of_buffer json_text test_config one_buffered
              one_buffered_reachable) as (H & _).
  exact H.
Defined.

(** Three records added to a new accumulator. *)
Lemma batch_preserves_insertion_order_witness :
  reachable json_text test_config new_accumulator
  ∧ read (batch (this new_accumulator)) new_accumulator = []
  ∧ run json_text [EvAdd "{'n':1}"; EvAdd "{'n':2}"; EvAdd "{'n':3}"] new_accumulator
    = Some three_buffered
  ∧ onFlush_calls three_buffered = onFlush_calls new_accumulator
  ∧ read (batch (this three_buffered)) three_buffered
    = adds_of [EvAdd "{'n':1}"; EvAdd "{'n':2}"; EvAdd "{'n':3}"].
Proof.
  assert (read (batch (this new_accumulator)) new_accumulator = []) as He
    by by_evaluation.
  assert (run json_text [EvAdd "{'n':1}"; EvAdd "{'n':2}"; EvAdd "{'n':3}"]
            new_accumulator = Some three_buffered) as Hrun by by_evaluation.
  assert (onFlush_calls three_buffered = onFlush_calls new_accumulator) as Hc
    by by_evaluation.
  split; [exact new_accumulator_reachable |]. split; [exact He |].
  split; [exact Hrun |]. split; [exact Hc |].
  destruct (batch_preserves_insertion_order json_text test_config new_accumulator
              _ three_buffered new_accumulator_reachable He Hrun Hc) as (H & _).
  exact H.
Defined.

(** A second [stop] after the delivery started by the first has settled, as
    when the transport calls [stop] at the end of the stream and again from
    its close hook. *)
Lemma second_stop_after_clean_first_stop_witness :
  reachable json_text test_config one_buffered
  ∧ Forall (λ e, is_add e = false) [EvSettle 0 Fulfilled : Event string]
  ∧ run json_text [EvStop; EvSettle 0 Fulfilled] one_buffered = Some one_stopped
  ∧ flushing (this one_buffered) = false
  ∧ timer (this one_stopped) = None
  ∧ stop one_stopped = Returned one_stopped.
Proof.
  assert (Forall (λ e, is_add e = false) [EvSettle 0 Fulfilled : Event string]) as Hes
    by (repeat constructor).
  assert (run json_text [EvStop; EvSettle 0 Fulfilled] one_buffered = Some one_stopped)
    as Hrun by by_evaluation.
  assert (flushing (this one_buffered) = false) as Hf by by_evaluation.
  split; [exact one_buffered_reachable |]. split; [exact Hes |].
  split; [exact Hrun |]. split; [exact Hf |].
  destruct (second_stop_after_clean_first_stop json_text test_config one_buffered
              _ one_stopped one_buffered_reachable Hes Hrun)
    as (H1 & _ & _ & H2 & _).
  split; [exact H1 | exact (H2 (or_introl Hf))].
Defined.

(** C10, as stated, fails.  A record is added while a flush started by the
    timer is in flight; the first [stop] finds the latch set, so its flush does
    nothing and it returns at once; the delivery then settles.  No record has
    been added since the first [stop], and yet the second [stop] does not
    return at once: it calls [onFlush] with the record left in the buffer. *)
Lemma second_stop_delivers_leftover :
  run json_text [EvAdd "{'n':1}"; EvTick 0%nat; EvAdd "{'n':2}"] new_accumulator
  = Some added_during_flight
  ∧ stop added_during_flight = Returned stopped_during_flight
  ∧ run json_text [EvSettle 0 Fulfilled] stopped_during_flight
    = Some settled_after_stop
  ∧ timer (this settled_after_stop) = None
  ∧ stop settled_after_stop ≠ Returned settled_after_stop
  ∧ onFlush_calls (runtime_of (stop settled_after_stop))
    = onFlush_calls settled_after_stop ++ [1%nat]
  ∧ read 1%nat (runtime_of (stop settled_after_stop)) = ["{'n':2}"].
Proof.
  split; [by_evaluation |]. split; [by_evaluation |]. split; [by_evaluation |].
  split; [by_evaluation |]. split; [by_evaluation |]. split; by_evaluation.
Qed.



(** The first record of the transport is over the byte threshold but the
    buffer holds fewer than [batchSize] records: no flush. *)
Lemma loop_flushes_on_both_thresholds_witness :
  reachable text_only (accumulator_config test_options) new_transport_accumulator
  ∧ parse null_only (inr (Some info_record)) = Some (Some info_record)
  ∧ transformLog decimal object_Object (Some info_record) test_options = Some info_log
  ∧ (add text_only info_log new_transport_accumulator).1 = true
  ∧ size (add text_only info_log new_transport_accumulator).2
    < batchSize (accumulator_config test_options)
  ∧ loop_body decimal object_Object text_only null_only test_options
      (inr (Some info_record)) new_transport_accumulator
    = Some (Returned (add text_only info_log new_transport_accumulator).2).
Proof.
  assert (reachable text_only (accumulator_config test_options)
            new_transport_accumulator) as Hr by (exists []; by_evaluation).
  assert (transformLog decimal object_Object (Some info_record) test_options
          = Some info_log) as Hlog by by_evaluation.
  assert (size (add text_only info_log new_transport_accumulator).2
          < batchSize (accumulator_config test_options)) as Hlt by by_evaluation.
  split; [exact Hr |]. split; [reflexivity |]. split; [exact Hlog |].
  split; [by_evaluation |]. split; [exact Hlt |].
  destruct (loop_flushes_on_both_thresholds decimal object_Object text_only null_only
              test_options (inr (Some info_record)) (Some info_record) info_log
              new_transport_accumulator Hr eq_refl Hlog) as (H & _).
  exact (proj1 (H (or_intror Hlt))).
Defined.

(** * The accumulator: what every run keeps *)

Section BatchAccumulatorRuns.

Context {Log : Type}.
Variable JSON_stringify : Log → string.

Implicit Types (r : Runtime Log) (l b : loc) (log : Log) (logs : list Log).
Implicit Types (e : Event Log) (es : list (Event Log)).

Local Abbreviation estimateLogSize := (estimateLogSize JSON_stringify).
Local Abbreviation add := (add JSON_stringify).
Local Abbreviation step := (step JSON_stringify).
Local Abbreviation run := (run JSON_stringify).
Local Abbreviation reachable := (reachable JSON_stringify).
Local Abbreviation total_size := (total_size JSON_stringify).
Local Abbreviation wf := (wf JSON_stringify).
Local Abbreviation quiet := (quiet JSON_stringify).

(** ** Conservation of records *)

Lemma delivered_ext r r' :
  onFlush_calls r' = onFlush_calls r →
  (∀ l, l ∈ onFlush_calls r → read l r' = read l r) →
  delivered r' = delivered r.
Proof.
  unfold delivered. intros -> Hread. f_equal.
  induction (onFlush_calls r) as [|l ls IH]; simpl; [done |].
  rewrite Hread by apply list_elem_of_here. f_equal.
  apply IH. intros l' Hl'. apply Hread. by apply list_elem_of_further.
Qed.

Lemma delivered_snoc r r' b :
  onFlush_calls r' = onFlush_calls r ++ [b] →
  (∀ l, l ∈ onFlush_calls r → read l r' = read l r) →
  delivered r' = delivered r ++ read b r'.
Proof.
  unfold delivered. intros -> Hread.
  rewrite fmap_app, concat_app. simpl. rewrite app_nil_r. f_equal. f_equal.
  induction (onFlush_calls r) as [|l ls IH]; simpl; [done |].
  rewrite Hread by apply list_elem_of_here. f_equal.
  apply IH. intros l' Hl'. apply Hread. by apply list_elem_of_further.
Qed.

Lemma step_conservation e r r' :
  wf r → step e r = Some r' →
  delivered r' ++ read (batch (this r')) r'
  = (delivered r ++ read (batch (this r)) r) ++ adds_of [e].
Proof.
  intros Hwf Hstep.
  destruct (step_spec _ e r r' Hwf Hstep) as [Hq | (Hna & _ & _ & Hst)].
  - destruct Hq as [Hb Hc _ Hr Hfr _].
    rewrite (delivered_ext r r' Hc), Hb, Hr, app_assoc; [done |].
    intros l Hl. apply Hfr. by apply (wf_calls _ r Hwf).
  - rewrite (delivered_snoc r r' (batch (this r)) (started_calls _ _ Hst)).
    + rewrite (started_read_new r r' Hst), (started_frame _ r r' Hst) by apply Hwf.
      by destruct e.
    + intros l Hl. apply (started_frame _ r r' Hst). by apply (wf_calls _ r Hwf).
Qed.

Lemma run_conservation es r r' :
  wf r → run es r = Some r' →
  delivered r' ++ read (batch (this r')) r'
  = (delivered r ++ read (batch (this r)) r) ++ adds_of es.
Proof.
  revert r. induction es as [|e es IH]; intros r Hwf; simpl.
  - intros [= <-]. by rewrite app_nil_r.
  - destruct (step e r) as [r1|] eqn:Hstep; [| done]. intros Hrun.
    rewrite (IH r1 (wf_step _ e r r1 Hwf Hstep) Hrun).
    rewrite (step_conservation e r r1 Hwf Hstep), <- !app_assoc.
    f_equal. f_equal. by destruct e.
Qed.

(** X1.  Whatever the events of a run on a new accumulator, the records
    handed to [onFlush], batch after batch in the order of the calls, followed
    by the records still in the buffer, are exactly the records added, in the
    order they were added: no record is lost, duplicated or moved. *)
Theorem no_record_lost_or_duplicated cfg es r :
  run es (new_BatchAccumulator cfg) = Some r →
  delivered r ++ read (batch (this r)) r = adds_of es.
Proof.
  intros Hrun. by rewrite (run_conservation es _ r (wf_new _ cfg) Hrun).
Qed.

(** ** The batches handed over *)

Lemma step_batches e r r' :
  wf r → step e r = Some r' →
  NoDup (onFlush_calls r) ∧ (∀ l, l ∈ onFlush_calls r → read l r ≠ []) →
  NoDup (onFlush_calls r') ∧ (∀ l, l ∈ onFlush_calls r' → read l r' ≠ []).
Proof.
  intros Hwf Hstep [Hnd Hne].
  destruct (step_spec _ e r r' Hwf Hstep) as [Hq | (_ & _ & Hbuf & Hst)].
  - destruct Hq as [_ Hc _ _ Hfr _]. rewrite Hc. split; [done |].
    intros l Hl. rewrite Hfr; [by apply Hne | by apply (wf_calls _ r Hwf)].
  - rewrite (started_calls _ _ Hst). split.
    + apply NoDup_app. split; [done |]. split; [| apply NoDup_singleton].
      intros l Hl ->%list_elem_of_singleton. by destruct (wf_calls _ r Hwf _ Hl).
    + intros l [Hl | ->%list_elem_of_singleton]%elem_of_app.
      * rewrite (started_frame _ r r' Hst); [by apply Hne | by apply (wf_calls _ r Hwf)].
      * rewrite (started_frame _ r r' Hst); [done | apply Hwf].
Qed.

Lemma run_batches es r r' :
  wf r → run es r = Some r' →
  NoDup (onFlush_calls r) ∧ (∀ l, l ∈ onFlush_calls r → read l r ≠ []) →
  NoDup (onFlush_calls r') ∧ (∀ l, l ∈ onFlush_calls r' → read l r' ≠ []).
Proof.
  revert r. induction es as [|e es IH]; intros r Hwf; simpl.
  - by intros [= <-].
  - destruct (step e r) as [r1|] eqn:Hstep; [| done]. intros Hrun Hok.
    apply (IH r1); [by eapply wf_step | done | by eapply step_batches].
Qed.

(** X2.  In every reachable state the arrays that were handed to [onFlush]
    are pairwise distinct objects, none of them is empty, and none of them is
    the current buffer: every call of [onFlush] received a batch of its own
    with at least one record. *)
Theorem delivered_batches_distinct_nonempty cfg r :
  reachable cfg r →
  NoDup (onFlush_calls r)
  ∧ (∀ l, l ∈ onFlush_calls r → read l r ≠ [])
  ∧ batch (this r) ∉ onFlush_calls r.
Proof.
  intros Hreach. pose proof (wf_reachable _ cfg r Hreach) as Hwf.
  destruct Hreach as [es Hrun].
  destruct (run_batches es _ r (wf_new _ cfg) Hrun) as [Hnd Hne].
  { split; [apply NoDup_nil_2 |]. intros l Hl. by apply elem_of_nil in Hl. }
  split; [done |]. split; [done |].
  intros Hin. by destruct (wf_calls _ r Hwf _ Hin).
Qed.

(** ** What is reported to the console *)

Lemma flush_console r : console_errors (runtime_of (flush r)) = console_errors r.
Proof. unfold flush. by destruct (flushing (this r) || (size r =? 0)). Qed.

Lemma step_console e r r' :
  step e r = Some r' → console_errors r' = console_errors r ++ rejections [e].
Proof.
  destruct e as [log | | h | i o |]; simpl.
  - intros [= <-]. simpl. by rewrite app_nil_r.
  - intros [= <-]. by rewrite flush_console, app_nil_r.
  - case_decide; [| done]. intros [= <-]. by rewrite flush_console, app_nil_r.
  - destruct (in_flight r !! i); [| done]. intros [= <-].
    destruct o; simpl; [by rewrite app_nil_r | done].
  - intros [= <-]. unfold stop, cancel_timer. rewrite flush_console, app_nil_r.
    by destruct (timer (this r)).
Qed.

(** X3.  After any run on a new accumulator, what the accumulator has written
    with [console.error] is exactly the reasons of the rejected deliveries, one
    entry per rejection, in the order in which they settled; a fulfilled
    delivery and every other event write nothing. *)
Theorem console_errors_are_rejections cfg es r :
  run es (new_BatchAccumulator cfg) = Some r →
  console_errors r = rejections es.
Proof.
  assert (∀ r0, run es r0 = Some r →
                console_errors r = console_errors r0 ++ rejections es) as Hgen.
  { induction es as [|e es IH]; intros r0; simpl.
    - intros [= <-]. by rewrite app_nil_r.
    - destruct (step e r0) as [r1|] eqn:Hstep; [| done]. intros Hrun.
      rewrite (IH r1 Hrun), (step_console e r0 r1 Hstep), <- app_assoc.
      f_equal. by destruct e as [| | | ? []|]. }
  intros Hrun. by rewrite (Hgen _ Hrun).
Qed.

(** ** The configuration and the counters *)

Lemma run_config es r r' :
  wf r → run es r = Some r' → config (this r') = config (this r).
Proof.
  revert r. induction es as [|e es IH]; intros r Hwf; simpl.
  - by intros [= <-].
  - destruct (step e r) as [r1|] eqn:Hstep; [| done]. intros Hrun.
    rewrite (IH r1 (wf_step _ e r r1 Hwf Hstep) Hrun).
    destruct (step_spec _ e r r1 Hwf Hstep) as [Hq | (_ & _ & _ & Hst)].
    + apply (quiet_config _ _ _ _ Hq).
    + apply (started_config _ _ Hst).
Qed.

Lemma reachable_config cfg r : reachable cfg r → config (this r) = cfg.
Proof.
  intros [es Hrun]. by rewrite (run_config es _ r (wf_new _ cfg) Hrun).
Qed.

Lemma length_le_total_size logs :
  (∀ log, JSON_stringify log ≠ "") → Z.of_nat (length logs) ≤ total_size logs.
Proof.
  intros Hne. induction logs as [|x xs IH]; simpl; [done |].
  assert (1 ≤ estimateLogSize x); [| lia].
  change (estimateLogSize x) with (Z.of_nat (String.length (JSON_stringify x))).
  specialize (Hne x). destruct (JSON_stringify x); [done | simpl; lia].
Qed.


(** X4.  [add] never lowers [estimatedSizeBytes()], raises it whenever the
    JSON text of the record is not empty, and in a reachable state raises
    [size()] by exactly one. *)
Theorem add_grows_counters cfg r log :
  reachable cfg r →
  estimatedSizeBytes r ≤ estimatedSizeBytes (add log r).2
  ∧ (JSON_stringify log ≠ "" →
     estimatedSizeBytes r < estimatedSizeBytes (add log r).2)
  ∧ size (add log r).2 = size r + 1.
Proof.
  intros Hreach. pose proof (wf_reachable _ cfg r Hreach) as Hwf.
  change (estimatedSizeBytes (add log r).2)
    with (currentSizeBytes (this r) + Z.of_nat (String.length (JSON_stringify log))).
  unfold estimatedSizeBytes. split; [lia |]. split.
  - intros Hne. destruct (JSON_stringify log); [done | simpl; lia].
  - unfold size. change (batch (this (add log r).2)) with (batch (this r)).
    rewrite (read_add _ log r) by apply Hwf. rewrite length_app. simpl. lia.
Qed.

(** X5.  In every reachable state [estimatedSizeBytes()] is not negative and
    is 0 when the buffer is empty; when no record has an empty JSON text, it
    is at least [size()], and it is 0 only when the buffer is empty. *)
Theorem counters_agree_on_empty cfg r :
  reachable cfg r →
  0 ≤ estimatedSizeBytes r
  ∧ (size r = 0 → estimatedSizeBytes r = 0)
  ∧ ((∀ log, JSON_stringify log ≠ "") →
     size r ≤ estimatedSizeBytes r ∧ (estimatedSizeBytes r = 0 → size r = 0)).
Proof.
  intros Hreach. pose proof (wf_reachable _ cfg r Hreach) as Hwf.
  unfold estimatedSizeBytes, size. rewrite (wf_size _ r Hwf).
  split; [apply total_size_nonneg |]. split.
  - intros Hz. by destruct (read (batch (this r)) r).
  - intros Hne. pose proof (length_le_total_size (read (batch (this r)) r) Hne).
    split; lia.
Qed.

(** X6.  With an empty buffer, in particular in the state in which a flush
    is suspended, [needsFlush()] is false exactly when [maxBatchSizeBytes] is
    positive: a ceiling of zero or less makes it true even with nothing
    buffered. *)
Theorem needsFlush_on_empty_buffer cfg r :
  reachable cfg r → read (batch (this r)) r = [] →
  (needsFlush r = true ↔ maxBatchSizeBytes cfg ≤ 0)
  ∧ (needsFlush r = false ↔ 0 < maxBatchSizeBytes cfg).
Proof.
  intros Hreach Hempty. pose proof (wf_reachable _ cfg r Hreach) as Hwf.
  assert (needsFlush r = true ↔ maxBatchSizeBytes cfg ≤ 0) as Hiff.
  { rewrite needsFlush_Z, (reachable_config cfg r Hreach), (wf_size _ r Hwf), Hempty.
    simpl. lia. }
  split; [done |]. destruct (needsFlush r).
  - split; [done |]. intros Hpos. assert (maxBatchSizeBytes cfg ≤ 0) by by apply Hiff.
    lia.
  - split; [| done]. intros _.
    destruct (decide (maxBatchSizeBytes cfg ≤ 0)) as [Hle|]; [| lia].
    by apply Hiff in Hle.
Qed.

(** ** The timer *)

(** X7.  [startTimer()] leaves exactly one interval live: it clears the
    interval the accumulator holds, if any, before it creates the new one, and
    it touches neither the buffer, the counters nor the latch. *)
Theorem startTimer_keeps_one_interval cfg r :
  reachable cfg r →
  ∃ h, timer (this (startTimer r)) = Some h
       ∧ intervals (startTimer r) = {[h]}
       ∧ clearInterval_calls (startTimer r)
         = clearInterval_calls r ++ option_list (timer (this r))
       ∧ arrays (startTimer r) = arrays r
       ∧ this (startTimer r) = set_timer (Some h) (this r)
       ∧ onFlush_calls (startTimer r) = onFlush_calls r
       ∧ in_flight (startTimer r) = in_flight r.
Proof.
  intros Hreach. pose proof (wf_timer _ r (wf_reachable _ cfg r Hreach)) as Hi.
  unfold startTimer. destruct (timer (this r)) as [h0|] eqn:Ht; simpl.
  - eexists. split; [done |]. rewrite Hi, difference_diag_L, union_empty_r_L.
    by repeat split.
  - eexists. split; [done |]. rewrite Hi, union_empty_r_L, app_nil_r.
    by repeat split.
Qed.

Lemma run_after_timer_cleared es r r' :
  wf r → timer (this r) = None → run es r = Some r' →
  Forall (λ e, is_tick e = false) es ∧ timer (this r') = None ∧ intervals r' = ∅.
Proof.
  revert r. induction es as [|e es IH]; intros r Hwf Ht; simpl.
  - intros [= <-]. split; [done |]. split; [done |].
    by rewrite (wf_timer _ r Hwf), Ht.
  - destruct (step e r) as [r1|] eqn:Hstep; [| done]. intros Hrun.
    destruct (IH r1) as (Hes & Ht' & Hi'); [by eapply wf_step | | done |].
    { by eapply step_keeps_timer_null. }
    split; [| done]. constructor; [| done].
    destruct e as [| | h | |]; try done. simpl in Hstep.
    rewrite (wf_timer _ r Hwf), Ht in Hstep.
    rewrite decide_False in Hstep; [done | apply not_elem_of_empty].
Qed.

Lemma run_without_flush_calls es r r' :
  Forall (λ e, calls_flush e = false) es → run es r = Some r' →
  onFlush_calls r' = onFlush_calls r.
Proof.
  intros Hes. revert r. induction Hes as [|e es He Hes IH]; intros r; simpl.
  - by intros [= <-].
  - destruct (step e r) as [r1|] eqn:Hstep; [| done]. intros Hrun.
    rewrite (IH r1 Hrun). destruct e as [log | | h | i o |]; try done; simpl in Hstep.
    + by injection Hstep as <-.
    + destruct (in_flight r !! i); [| done]. injection Hstep as <-. by destruct o.
Qed.

(** X8.  Once [stop] has been called the interval never fires again: no run
    that continues after [stop] contains a tick, and [timer] stays null with
    no interval live.  Records added afterwards are handed to [onFlush] only
    by a further call of [flush] or [stop]: a continuation made of [add]s and
    settlements makes no call of [onFlush]. *)
Theorem no_tick_after_stop cfg r es r' :
  reachable cfg r → run (EvStop :: es) r = Some r' →
  Forall (λ e, is_tick e = false) es
  ∧ timer (this r') = None
  ∧ intervals r' = ∅
  ∧ (Forall (λ e, calls_flush e = false) es →
     onFlush_calls r' = onFlush_calls (runtime_of (stop r))).
Proof.
  intros Hreach Hrun. pose proof (wf_reachable _ cfg r Hreach) as Hwf.
  simpl in Hrun.
  destruct (run_after_timer_cleared es _ r' (wf_stop _ r Hwf)) as (H1 & H2 & H3);
    [apply stop_clears_timer | done |].
  split; [done |]. split; [done |]. split; [done |].
  intros Hes. by apply (run_without_flush_calls es).
Qed.

(** X9.  A call of [stop] made while a delivery is in flight cancels the timer
    and returns at once: it neither waits for that delivery nor starts one,
    and the records buffered at that moment stay in the buffer. *)
Theorem stop_during_flight_returns_at_once cfg r :
  reachable cfg r → flushing (this r) = true →
  stop r = Returned (cancel_timer r)
  ∧ in_flight (cancel_timer r) = in_flight r
  ∧ in_flight r ≠ []
  ∧ onFlush_calls (cancel_timer r) = onFlush_calls r
  ∧ read (batch (this (cancel_timer r))) (cancel_timer r) = read (batch (this r)) r
  ∧ timer (this (cancel_timer r)) = None
  ∧ intervals (cancel_timer r) = ∅.
Proof.
  intros Hreach Hf. pose proof (wf_reachable _ cfg r Hreach) as Hwf.
  destruct (cancel_timer_buffer r) as (_ & Hb & _ & Hfc & _ & Hc & Hp).
  split; [unfold stop; apply flush_guard; left; by rewrite Hfc |].
  split; [done |]. split.
  { destruct (wf_latch _ r Hwf) as [[_ ?] | [[b ->] _]]; [congruence | done]. }
  split; [done |]. split; [by rewrite Hb, cancel_timer_read |].
  pose proof (wf_timer _ _ (wf_cancel_timer _ r Hwf)) as Hi.
  assert (timer (this (cancel_timer r)) = None) as Ht.
  { unfold cancel_timer. by destruct (timer (this r)) eqn:Ht. }
  split; [done |]. by rewrite Hi, Ht.
Qed.


End BatchAccumulatorRuns.

(** * The transform: what every record satisfies *)

Lemma inherited_not_in_table key :
  key ∈ Object_prototype → LEVEL_TO_SEVERITY !! key = None.
Proof.
  intros Hin. unfold Object_prototype in Hin.
  repeat (apply elem_of_cons in Hin as [-> | Hin]; [by vm_compute |]).
  by apply elem_of_nil in Hin.
Qed.

Lemma severity_of_table_key (k : Z) :
  pretty k ∈ dom LEVEL_TO_SEVERITY →
  ∃ n, or_else (LEVEL_TO_SEVERITY_get (pretty k)) 3 = Ordinal n
       ∧ k = 10 * n ∧ 1 ≤ n ≤ 6.
Proof.
  intros [n Hn]%elem_of_dom.
  destruct (severity_of_key (pretty k)) as (H & _). exists n.
  split; [by apply H |]. rewrite LEVEL_TO_SEVERITY_pretty in Hn.
  repeat (case_decide; [subst k; injection Hn as <-; lia |]). done.
Qed.

Lemma when_truthy_spec v : when_truthy v = JsUndefined ∨ truthy (when_truthy v) = true.
Proof. unfold when_truthy. destruct (truthy v) eqn:Hv; [by right | by left]. Qed.

Section TransformRecords.

Variable Number_toString : Q → string.
Variable Object_toString : string → option string.

(** X10.  The severity of a transformed record is an integer from 1 to 6,
    unless the level names a property the table inherits from
    [Object.prototype]; it is then that inherited member.  On the levels of
    the table the severity is the level divided by ten, so that it keeps their
    order and tells them apart: of two records with levels of the table, the
    one with the lower level has the lower severity. *)
Theorem severity_in_range_and_ordered pinoLog1 pinoLog2 config log1 log2 :
  let key_of v := ToPropertyKey Number_toString Object_toString (PinoLog.level v) in
  transformLog Number_toString Object_toString (Some pinoLog1) config = Some log1 →
  transformLog Number_toString Object_toString (Some pinoLog2) config = Some log2 →
  (∀ key, key_of pinoLog1 = Some key → key ∉ Object_prototype →
     ∃ n, CoralogixLog.severity log1 = Ordinal n ∧ 1 ≤ n ≤ 6)
  ∧ (∀ key, key_of pinoLog1 = Some key → key ∈ Object_prototype →
       CoralogixLog.severity log1 = Inherited key)
  ∧ (∀ k1 k2 : Z,
       key_of pinoLog1 = Some (pretty k1) → key_of pinoLog2 = Some (pretty k2) →
       pretty k1 ∈ dom LEVEL_TO_SEVERITY → pretty k2 ∈ dom LEVEL_TO_SEVERITY →
       ∃ n1 n2, CoralogixLog.severity log1 = Ordinal n1
                ∧ CoralogixLog.severity log2 = Ordinal n2
                ∧ k1 = 10 * n1
                ∧ (k1 < k2 ↔ n1 < n2)).
Proof.
  intros key_of Hlog1 Hlog2.
  assert (∀ pinoLog log key,
            transformLog Number_toString Object_toString (Some pinoLog) config
            = Some log →
            key_of pinoLog = Some key →
            CoralogixLog.severity log = or_else (LEVEL_TO_SEVERITY_get key) 3) as Hsev.
  { intros pinoLog log key Hlog Hkey.
    destruct (transformLog_severity _ _ pinoLog config key Hkey) as (log' & Hlog' & <-).
    congruence. }
  split; [| split].
  - intros key Hkey Hproto. rewrite (Hsev _ _ _ Hlog1 Hkey).
    destruct (severity_of_key key) as (Htable & Hmissing & _).
    destruct (LEVEL_TO_SEVERITY !! key) as [n|] eqn:Hn.
    + exists n. split; [by apply Htable |]. rewrite LEVEL_TO_SEVERITY_lookup in Hn.
      repeat (case_decide; [injection Hn as <-; lia |]). done.
    + exists 3. split; [by apply Hmissing | lia].
  - intros key Hkey Hproto. rewrite (Hsev _ _ _ Hlog1 Hkey).
    destruct (severity_of_key key) as (_ & _ & H). apply H; [| done].
    by apply inherited_not_in_table.
  - intros k1 k2 Hkey1 Hkey2 Hin1 Hin2.
    destruct (severity_of_table_key k1 Hin1) as (n1 & Hn1 & Hk1 & _).
    destruct (severity_of_table_key k2 Hin2) as (n2 & Hn2 & Hk2 & _).
    exists n1, n2. rewrite (Hsev _ _ _ Hlog1 Hkey1), (Hsev _ _ _ Hlog2 Hkey2).
    split; [done |]. split; [done |]. split; [done |]. lia.
Qed.

(** X11.  [transformLog] builds a record unless the level cannot be turned
    into a property key.  Of the record built, each of the optional
    properties [computerName], [category], [className], [methodName] and
    [threadId] is either left out or holds a truthy value: an empty string, a
    zero, [null] or [false] in the input is never copied.  [computerName] is
    the one of the configuration whenever that one is truthy, and is left out
    only when neither the configuration nor the record has a truthy one. *)
Theorem optional_fields_absent_or_truthy pinoLog config :
  match transformLog Number_toString Object_toString (Some pinoLog) config with
  | Some log =>
      Forall (λ v, v = JsUndefined ∨ truthy v = true)
        [CoralogixLog.computerName log; CoralogixLog.category log;
         CoralogixLog.className log; CoralogixLog.methodName log;
         CoralogixLog.threadId log]
      ∧ (truthy (Options.computerName config) = true →
         CoralogixLog.computerName log = Options.computerName config)
      ∧ (CoralogixLog.computerName log = JsUndefined ↔
         truthy (Options.computerName config) = false
         ∧ truthy (PinoLog.hostname pinoLog) = false)
  | None =>
      ToPropertyKey Number_toString Object_toString (PinoLog.level pinoLog) = None
  end.
Proof.
  unfold transformLog. simpl.
  destruct (ToPropertyKey Number_toString Object_toString (PinoLog.level pinoLog))
    as [key|]; simpl; [| done].
  split; [| split].
  - apply Forall_cons_2;
      [| repeat (apply Forall_cons_2; [apply when_truthy_spec |]); apply Forall_nil_2].
    destruct (truthy (Options.computerName config)) eqn:Hc; [by right |].
    apply when_truthy_spec.
  - by intros ->.
  - unfold when_truthy.
    destruct (truthy (Options.computerName config)) eqn:Hc.
    { split; [intros Heq; by rewrite Heq in Hc | by intros [? ?]]. }
    destruct (truthy (PinoLog.hostname pinoLog)) eqn:Hh.
    { split; [intros Heq; by rewrite Heq in Hh | by intros [? ?]]. }
    done.
Qed.

End TransformRecords.

(** * The configuration check: properties *)

Lemma includes_spec xs v :
  includes xs v = true ↔ ∃ s, v = JsString s ∧ s ∈ xs.
Proof.
  destruct v; simpl; try (split; [done | by intros (? & ? & ?)]).
  rewrite bool_decide_eq_true. split; [by eexists | by intros (? & [= <-] & ?)].
Qed.

Lemma includes_truthy v : includes VALID_DOMAINS v = true → truthy v = true.
Proof.
  intros (s & -> & Hs)%includes_spec. simpl.
  destruct s; [| done]. exfalso.
  repeat (apply elem_of_cons in Hs as [Hs | Hs]; [discriminate Hs |]).
  by apply elem_of_nil in Hs.
Qed.

(** X12.  [validateConfig] returns without throwing exactly when [domain] is
    one of the seven strings of [VALID_DOMAINS] and [apiKey],
    [applicationName] and [subsystemName] are all truthy. *)
Theorem validateConfig_accepts opts :
  validateConfig opts = None
  ↔ (∃ s, Options.domain opts = JsString s ∧ s ∈ VALID_DOMAINS)
    ∧ truthy (Options.apiKey opts) = true
    ∧ truthy (Options.applicationName opts) = true
    ∧ truthy (Options.subsystemName opts) = true.
Proof.
  rewrite <- includes_spec. unfold validateConfig.
  destruct (includes VALID_DOMAINS (Options.domain opts)) eqn:Hd.
  - rewrite (includes_truthy _ Hd). simpl.
    destruct (truthy (Options.apiKey opts)),
      (truthy (Options.applicationName opts)),
      (truthy (Options.subsystemName opts)); simpl; split; try done;
      by intros (_ & ? & ? & ?).
  - destruct (truthy (Options.domain opts)); simpl; (split; [done |]);
      by intros (? & _).
Qed.

(** X13.  [validateConfig] reports the first check that fails, in the order
    [domain], [apiKey], [applicationName], [subsystemName]: a falsy domain
    (an empty string included) is reported as missing, a truthy value that is
    not one of the seven names as invalid, quoting that value, and a missing
    [apiKey], [applicationName] or [subsystemName] is reported only when
    every check before it has passed. *)
Theorem validateConfig_reports_first_failure opts :
  (validateConfig opts = Some DomainRequired
   ↔ truthy (Options.domain opts) = false)
  ∧ (∀ v, validateConfig opts = Some (InvalidDomain v)
          ↔ v = Options.domain opts ∧ truthy v = true
            ∧ includes VALID_DOMAINS v = false)
  ∧ (validateConfig opts = Some ApiKeyRequired
     ↔ includes VALID_DOMAINS (Options.domain opts) = true
       ∧ truthy (Options.apiKey opts) = false)
  ∧ (validateConfig opts = Some ApplicationNameRequired
     ↔ includes VALID_DOMAINS (Options.domain opts) = true
       ∧ truthy (Options.apiKey opts) = true
       ∧ truthy (Options.applicationName opts) = false)
  ∧ (validateConfig opts = Some SubsystemNameRequired
     ↔ includes VALID_DOMAINS (Options.domain opts) = true
       ∧ truthy (Options.apiKey opts) = true
       ∧ truthy (Options.applicationName opts) = true
       ∧ truthy (Options.subsystemName opts) = false).
Proof.
  unfold validateConfig.
  destruct (includes VALID_DOMAINS (Options.domain opts)) eqn:Hd.
  - rewrite (includes_truthy _ Hd).
    destruct (truthy (Options.apiKey opts)),
      (truthy (Options.applicationName opts)),
      (truthy (Options.subsystemName opts)); simpl;
      (split; [done |]); (split; [intros v; split; [done | intros (-> & _ & ?); congruence] |]);
      repeat split; intros; intuition congruence.
  - destruct (truthy (Options.domain opts)) eqn:Ht; simpl.
    + split; [done |]. split.
      { intros v. split; [by intros [= <-] | by intros (-> & _)]. }
      repeat split; try done; by intros (? & ?).
    + split; [done |]. split.
      { intros v. split; [done | intros (-> & ? & _); congruence]. }
      repeat split; try done; by intros (? & ?).
Qed.

(** * The HTTP client: properties *)

Lemma length_append s1 s2 :
  String.length (s1 +:+ s2) = (String.length s1 + String.length s2)%nat.
Proof. induction s1 as [|c s1 IH]; simpl; [done | by rewrite IH]. Qed.

Lemma append_inj_r s1 s2 t : s1 +:+ t = s2 +:+ t → s1 = s2.
Proof.
  revert s2. induction s1 as [|c s1 IH]; intros [|c' s2] Heq.
  - done.
  - apply (f_equal String.length) in Heq.
    rewrite !length_append in Heq. simpl in Heq. lia.
  - apply (f_equal String.length) in Heq.
    rewrite !length_append in Heq. simpl in Heq. lia.
  - injection Heq as -> Heq. f_equal. by apply IH.
Qed.

(** X14.  [buildEndpointUrl] never gives the same URL for two different
    domains, and every URL it gives starts with [https://ingress.]; so the
    seven valid domains have seven different endpoints. *)
Theorem buildEndpointUrl_injective domain1 domain2 :
  (buildEndpointUrl domain1 = buildEndpointUrl domain2 → domain1 = domain2)
  ∧ String.prefix "https://ingress." (buildEndpointUrl domain1) = true
  ∧ NoDup (buildEndpointUrl <$> VALID_DOMAINS).
Proof.
  assert (Inj (=) (=) buildEndpointUrl) as Hinj.
  { intros d1 d2 Heq. unfold buildEndpointUrl in Heq.
    apply (inj (String.app "https://ingress.")) in Heq. by apply append_inj_r in Heq. }
  split; [apply Hinj |]. split; [by destruct domain1 |].
  apply (NoDup_fmap_2 _). apply (bool_decide_unpack _). by vm_compute.
Qed.


(** X15.  [sendLogs] resolves exactly when [request] has produced a response
    whose body could be read and whose status code is from 200 to 299, and it
    then reports that status code.  A response in that range whose body
    cannot be read is a failure. *)
Theorem sendLogs_succeeds_on_2xx reply statusCode :
  (sendLogs_settle reply = inl statusCode
   ↔ ∃ responseBody, reply = Responded statusCode responseBody
                     ∧ 200 ≤ statusCode < 300)
  ∧ (∀ message, ∃ error, sendLogs_settle (BodyFailed statusCode message) = inr error).
Proof.
  split; [| by eexists].
  unfold sendLogs_settle, sendLogs_try. destruct reply as [m | s m | s b]; simpl.
  - split; [done | by intros (? & ? & ?)].
  - split; [done | by intros (? & ? & ?)].
  - destruct ((200 <=? s) && (s <? 300)) eqn:Hs.
    + apply andb_true_iff in Hs as [H1%Z.leb_le H2%Z.ltb_lt].
      split; [intros [= <-]; by exists b |]. by intros (? & [= -> _] & _).
    + split; [done |]. intros (? & [= -> _] & H1 & H2).
      apply Z.leb_le in H1. apply Z.ltb_lt in H2. by rewrite H1, H2 in Hs.
Qed.

(** X16.  [sendLogs] throws an [HttpError] exactly when a response was
    received and read and its status code is outside 200 to 299; the error
    carries that status code and that body unchanged, and its message is
    [HTTP <status>: <body>].  Every other failure is thrown as a plain error
    whose message is the message of the cause after [Failed to send logs: ]. *)
Theorem sendLogs_classifies_failures reply :
  (∀ message statusCode body,
     sendLogs_settle reply = inr (HttpError message statusCode body)
     ↔ reply = Responded statusCode body
       ∧ ¬ (200 ≤ statusCode < 300)
       ∧ message = "HTTP " +:+ pretty statusCode +:+ ": " +:+ body)
  ∧ (∀ message,
       sendLogs_settle reply = inr (Error message)
       ↔ ∃ cause, message = "Failed to send logs: " +:+ cause
                  ∧ (reply = RequestFailed cause
                     ∨ ∃ statusCode, reply = BodyFailed statusCode cause)).
Proof.
  unfold sendLogs_settle, sendLogs_try. destruct reply as [m | s m | s b]; simpl.
  - split; [intros; split; [done | by intros (? & _)] |].
    intros message. split.
    + intros [= <-]. exists m. split; [done | by left].
    + by intros (c & -> & [[= <-] | (? & ?)]).
  - split; [intros; split; [done | by intros (? & _)] |].
    intros message. split.
    + intros [= <-]. exists m. split; [done |]. right. by exists s.
    + by intros (c & -> & [? | (? & [= _ <-])]).
  - destruct ((200 <=? s) && (s <? 300)) eqn:Hs.
    + apply andb_true_iff in Hs as [H1%Z.leb_le H2%Z.ltb_lt].
      split.
      * intros message statusCode body. split; [done |].
        intros ([= <- <-] & Hn & _). by destruct Hn.
      * intros message. split; [done |]. by intros (? & _ & [? | (? & ?)]).
    + split.
      * intros message statusCode body. split.
        -- intros [= <- <- <-]. split; [done |]. split; [| done].
           intros [H1%Z.leb_le H2%Z.ltb_lt]. by rewrite H1, H2 in Hs.
        -- by intros ([= <- <-] & _ & ->).
      * intros message. split; [done |]. by intros (? & _ & [? | (? & ?)]).
Qed.

Section RequestBody.

Context {Log : Type}.
Variable JSON_stringify : Log → string.

Local Abbreviation total_size := (total_size JSON_stringify).

Lemma concat_length (texts : list string) :
  texts ≠ [] →
  (String.length (String.concat "," texts) + 1
   = sum_list (String.length <$> texts) + length texts)%nat.
Proof.
  induction texts as [|t [|t' ts] IH]; intros Hne; [done | |].
  { simpl. by rewrite Nat.add_0_r. }
  change (String.concat "," (t :: t' :: ts))
    with (t +:+ "," +:+ String.concat "," (t' :: ts)).
  rewrite !length_append. specialize (IH ltac:(done)).
  simpl in *. lia.
Qed.

Lemma total_size_sum_list logs :
  total_size logs = Z.of_nat (sum_list (String.length <$> (JSON_stringify <$> logs))).
Proof.
  induction logs as [|x xs IH]; simpl; [done |].
  rewrite Nat2Z.inj_add. unfold estimateLogSize. f_equal. exact IH.
Qed.

Lemma JSON_stringify_array_length logs :
  logs ≠ [] →
  Z.of_nat (String.length (JSON_stringify_array JSON_stringify logs))
  = total_size logs + Z.of_nat (length logs) + 1.
Proof.
  intros Hne. unfold JSON_stringify_array. rewrite !length_append. simpl.
  pose proof (concat_length (JSON_stringify <$> logs)) as Hlen.
  rewrite length_fmap in Hlen. rewrite total_size_sum_list.
  specialize (Hlen ltac:(by destruct logs)). lia.
Qed.

(** X17.  When a flush hands a batch to [onFlush], the body [sendLogs] builds
    for that batch is longer than the size the accumulator had estimated: its
    length is the estimate plus the number of records plus one (the commas and
    the two brackets of the array).  The URL, the method and the two timeouts
    of the request do not depend on the batch. *)
Theorem request_body_exceeds_estimate cfg r r' b domain apiKey timeout :
  reachable JSON_stringify cfg r → flush r = Awaiting r' b →
  let request := sendLogs_request JSON_stringify (read b r') domain apiKey timeout in
  Z.of_nat (String.length (body request)) = estimatedSizeBytes r + size r + 1
  ∧ estimatedSizeBytes r < Z.of_nat (String.length (body request))
  ∧ url request = buildEndpointUrl domain
  ∧ method request = "POST"
  ∧ headersTimeout request = timeout ∧ bodyTimeout request = timeout.
Proof.
  intros Hreach Hfl request. pose proof (wf_reachable _ cfg r Hreach) as Hwf.
  destruct (flush_spec r) as [_ | r1 _ Hne Hst]; [done |].
  injection Hfl as <- <-.
  assert (read (batch (this r)) r1 = read (batch (this r)) r) as Hold
    by apply (started_frame _ r r1 Hst), Hwf.
  assert (Z.of_nat (String.length (body request)) = estimatedSizeBytes r + size r + 1)
    as Hlen.
  { change (body request)
      with (JSON_stringify_array JSON_stringify (read (batch (this r)) r1)).
    rewrite Hold, JSON_stringify_array_length by done.
    unfold estimatedSizeBytes, size. by rewrite (wf_size _ r Hwf). }
  split; [done |]. split; [| done]. rewrite Hlen. unfold size. lia.
Qed.

End RequestBody.

(** * The function given to [build]: properties *)

Lemma consume_eq Number_toString Object_toString JSON_stringify JSON_parse opts
    outcome source r :
  consume Number_toString Object_toString JSON_stringify JSON_parse opts outcome
    source r
  = ((for_await Number_toString Object_toString JSON_stringify JSON_parse opts
        outcome source r).1,
     await_settled outcome
       (stop (for_await Number_toString Object_toString JSON_stringify JSON_parse
                opts outcome source r).2)).
Proof.
  unfold consume.
  by destruct (for_await Number_toString Object_toString JSON_stringify JSON_parse
                 opts outcome source r).
Qed.

Section ConsumeFacts.

Variable Number_toString : Q → string.
Variable Object_toString : string → option string.
Variable JSON_stringify : CoralogixLog.t → string.
Variable JSON_parse : string → option (option PinoLog.t).
Variable opts : Options.t.
Variable outcome : loc → Outcome.

Implicit Types (r : Runtime CoralogixLog.t).

Local Abbreviation wf := (wf JSON_stringify).
Local Abbreviation add := (add JSON_stringify).
Local Abbreviation run := (run JSON_stringify).
Local Abbreviation await_settled := (await_settled outcome).
Local Abbreviation turn :=
  (loop_body Number_toString Object_toString JSON_stringify JSON_parse opts).
Local Abbreviation for_await :=
  (for_await Number_toString Object_toString JSON_stringify JSON_parse opts outcome).
Local Abbreviation consume :=
  (consume Number_toString Object_toString JSON_stringify JSON_parse opts outcome).
Local Abbreviation added_by :=
  (added_by Number_toString Object_toString JSON_parse opts).
Local Abbreviation throws :=
  (throws Number_toString Object_toString JSON_parse opts).
Local Abbreviation transformed :=
  (λ v, transformLog Number_toString Object_toString v opts).

Local Abbreviation idle := (idle JSON_stringify).

Lemma idle_in_flight r : idle r → in_flight r = [].
Proof.
  intros [Hwf Hf]. destruct (wf_latch _ r Hwf) as [[? _] | [_ ?]]; [done | congruence].
Qed.

(** Awaiting a [flush] called with nothing in flight: the buffer has been
    handed over, the delivery has settled. *)
Lemma await_flush r :
  idle r →
  idle (await_settled (flush r))
  ∧ read (batch (this (await_settled (flush r)))) (await_settled (flush r)) = []
  ∧ delivered (await_settled (flush r)) = delivered r ++ read (batch (this r)) r
  ∧ timer (this (await_settled (flush r))) = timer (this r).
Proof.
  intros Hidle. destruct Hidle as [Hwf Hf].
  destruct (read (batch (this r)) r) as [|x xs] eqn:Hbuf.
  { rewrite flush_guard by (by right). simpl. by rewrite Hbuf, app_nil_r. }
  rewrite <- Hbuf.
  destruct (flush_drains _ r Hwf Hf) as (r1 & Hfl & Hst & Hold & Hnew & Hp);
    [by rewrite Hbuf |].
  destruct (flush_timer r) as (Ht1 & _). rewrite Hfl in Ht1 |- *. simpl in Ht1 |- *.
  rewrite Hp. simpl.
  set (r' := (flush_resume (outcome (batch (this r))) (with_in_flight [] r1)).2).
  assert (run [EvFlush; EvSettle 0 (outcome (batch (this r)))] r = Some r') as Hrun.
  { simpl. rewrite Hfl. simpl. by rewrite Hp. }
  assert (read (batch (this r')) r' = []) as Hnew' by (by destruct (outcome _)).
  pose proof (run_conservation _ _ r r' Hwf Hrun) as Hcons.
  rewrite Hnew', !app_nil_r in Hcons.
  split; [split; [by eapply wf_run | by destruct (outcome _)] |].
  split; [done |]. split; [done |]. rewrite <- Ht1. by destruct (outcome _).
Qed.

(** Awaiting [stop] called with nothing in flight. *)
Lemma await_stop r :
  idle r →
  idle (await_settled (stop r))
  ∧ read (batch (this (await_settled (stop r)))) (await_settled (stop r)) = []
  ∧ delivered (await_settled (stop r)) = delivered r ++ read (batch (this r)) r
  ∧ timer (this (await_settled (stop r))) = None.
Proof.
  intros [Hwf Hf]. unfold stop.
  destruct (cancel_timer_buffer r) as (_ & Hb & _ & Hfc & _ & Hc & _).
  destruct (await_flush (cancel_timer r)) as (Hidle & Hnew & Hd & Ht).
  { split; [by apply wf_cancel_timer | by rewrite Hfc]. }
  split; [done |]. split; [done |]. split.
  - rewrite Hd, Hb, cancel_timer_read. f_equal.
    apply delivered_ext; [done |]. intros l _. apply cancel_timer_read.
  - rewrite Ht. unfold cancel_timer. by destruct (timer (this r)) eqn:Htm.
Qed.

Lemma idle_console_error message r : idle r → idle (console_error message r).
Proof. intros [[] Hf]. by split; [split |]. Qed.

(** One turn of the loop that does not throw, awaited. *)
Lemma await_turn obj r a :
  idle r → turn obj r = Some a →
  throws obj = false
  ∧ idle (await_settled a)
  ∧ delivered (await_settled a)
      ++ read (batch (this (await_settled a))) (await_settled a)
    = (delivered r ++ read (batch (this r)) r)
        ++ option_list (parse JSON_parse obj ≫= transformed).
Proof.
  intros Hidle Hturn. unfold throws.
  destruct (parse JSON_parse obj) as [v|] eqn:Hparse.
  2:{ assert (turn obj r = Some (Returned (console_error "Failed to parse log line:" r)))
        as Heq by (unfold loop_body; by rewrite Hparse).
      rewrite Heq in Hturn. injection Hturn as <-. simpl. split; [done |].
      split; [by apply idle_console_error |]. by rewrite app_nil_r. }
  simpl.
  destruct (transformLog Number_toString Object_toString v opts) as [log|] eqn:Hlog.
  2:{ assert (turn obj r = None) as Heq by (unfold loop_body; by rewrite Hparse, Hlog).
      congruence. }
  destruct Hidle as [Hwf Hf].
  set (needs := (add log r).1). set (r1 := (add log r).2).
  assert (turn obj r
          = Some (if needs && (batchSize (accumulator_config opts) <=? size r1)
                  then flush r1 else Returned r1))
    as Heq by (unfold loop_body; by rewrite Hparse, Hlog).
  rewrite Heq in Hturn. injection Hturn as <-.
  assert (idle r1) as Hidle1 by (split; [by apply wf_add | done]).
  assert (delivered r1 ++ read (batch (this r1)) r1
          = (delivered r ++ read (batch (this r)) r) ++ [log]) as Hcons.
  { change (batch (this r1)) with (batch (this r)). subst r1.
    rewrite (read_add JSON_stringify log r) by apply Hwf.
    rewrite app_assoc. f_equal. f_equal.
    apply delivered_ext; [done |]. intros l Hl. apply (read_add_ne JSON_stringify).
    by apply (wf_calls _ r Hwf). }
  clearbody r1 needs. clear Heq. split; [done |].
  change (option_list (Some log)) with [log].
  destruct (needs && _).
  - destruct (await_flush r1 Hidle1) as (Hidle2 & Hnew & Hd & _).
    split; [done |]. by rewrite Hnew, app_nil_r, Hd.
  - done.
Qed.

(** A turn throws exactly on the items [throws] tells, and then leaves the
    accumulator as it was. *)
Lemma turn_throws obj r : turn obj r = None ↔ throws obj = true.
Proof.
  unfold loop_body, throws.
  destruct (parse JSON_parse obj) as [v|]; simpl; [| done].
  by destruct (transformLog Number_toString Object_toString v opts).
Qed.

Lemma added_by_cons obj rest :
  added_by (obj :: rest)
  = if throws obj then []
    else option_list (parse JSON_parse obj ≫= transformed) ++ added_by rest.
Proof.
  unfold throws. simpl.
  destruct (parse JSON_parse obj) as [v|]; simpl; [| done].
  by destruct (transformLog Number_toString Object_toString v opts).
Qed.

Lemma for_await_spec source r :
  idle r →
  idle (for_await source r).2
  ∧ delivered (for_await source r).2
      ++ read (batch (this (for_await source r).2)) (for_await source r).2
    = (delivered r ++ read (batch (this r)) r) ++ added_by source
  ∧ ((for_await source r).1 = Normal ↔ Forall (λ obj, throws obj = false) source)
  ∧ ((for_await source r).1 = Normal ∨ (for_await source r).1 = Throw TypeError).
Proof.
  revert r. induction source as [|obj rest IH]; intros r Hidle.
  - simpl. split; [done |]. split; [by rewrite app_nil_r |].
    split; [done | by left].
  - rewrite added_by_cons. simpl for_await.
    destruct (turn obj r) as [a|] eqn:Hturn.
    + destruct (await_turn obj r a Hidle Hturn) as (Hno & Hidle1 & Hcons1).
      destruct (IH _ Hidle1) as (Hidle2 & Hcons2 & Hnormal & Hcases).
      rewrite Hno. split; [done |].
      split; [by rewrite Hcons2, Hcons1, <- app_assoc |].
      split; [| done]. rewrite Hnormal. split.
      * intros Hrest. by constructor.
      * by intros [_ Hrest]%Forall_cons.
    + apply turn_throws in Hturn. rewrite Hturn. simpl.
      split; [done |]. split; [by rewrite app_nil_r |].
      split; [| by right]. split; [done |].
      intros [Hno _]%Forall_cons. congruence.
Qed.

Lemma added_by_without_throw source :
  Forall (λ obj, throws obj = false) source →
  added_by source = omap (λ obj, parse JSON_parse obj ≫= transformed) source.
Proof.
  induction 1 as [|obj rest Hno Hrest IH]; [done |].
  rewrite added_by_cons, Hno, IH. simpl.
  by destruct (parse JSON_parse obj ≫= transformed).
Qed.

(** X18.  When the transport runs on a source that ends and the interval
    does not fire meanwhile, then, however the deliveries settle, by the time
    the [stop] of its [finally] clause has ended the records handed to
    [onFlush] are exactly the transformed records of the items the loop has
    read, each once and in the order of the source; the buffer is empty,
    nothing is in flight and the timer is cancelled, and the [stop] of the
    close hook that follows changes nothing.  When [transformLog] throws on no
    item, the function ends normally and the items read are all the items
    that could be parsed, those that could not being skipped.  Otherwise the
    loop ends at the first item on which [transformLog] throws, the items
    after it are not read, and the function throws the [TypeError]; the
    records added before are still handed over by the final [stop]. *)
Theorem transport_delivers_every_record source :
  let c := (consume source (new_BatchAccumulator (accumulator_config opts))).1 in
  let r := (consume source (new_BatchAccumulator (accumulator_config opts))).2 in
  delivered r = added_by source
  ∧ read (batch (this r)) r = []
  ∧ flushing (this r) = false
  ∧ in_flight r = []
  ∧ timer (this r) = None
  ∧ intervals r = ∅
  ∧ close outcome r = r
  ∧ (c = Normal ↔ Forall (λ obj, throws obj = false) source)
  ∧ (c = Normal ∨ c = Throw TypeError)
  ∧ (Forall (λ obj, throws obj = false) source →
     added_by source = omap (λ obj, parse JSON_parse obj ≫= transformed) source).
Proof.
  intros c r.
  assert (idle (new_BatchAccumulator (accumulator_config opts))) as Hidle0
    by (split; [apply wf_new | done]).
  destruct (for_await_spec source _ Hidle0) as (Hidle1 & Hcons1 & Hnormal & Hcases).
  destruct (await_stop _ Hidle1) as (Hidle & Hnew & Hd & Ht).
  assert (c = (for_await source (new_BatchAccumulator (accumulator_config opts))).1)
    as Hc by (subst c; by rewrite consume_eq).
  assert (r = await_settled
                (stop (for_await source
                         (new_BatchAccumulator (accumulator_config opts))).2))
    as Hr by (subst r; by rewrite consume_eq).
  rewrite <- Hr in Hidle, Hnew, Hd, Ht. rewrite <- Hc in Hnormal, Hcases.
  clearbody c r.
  split; [by rewrite Hd, Hcons1 |]. split; [done |].
  split; [apply Hidle |]. split; [by apply idle_in_flight |]. split; [done |].
  split; [by rewrite (wf_timer _ r (proj1 Hidle)), Ht |].
  split.
  { unfold close, stop, cancel_timer. rewrite Ht.
    by rewrite flush_guard by (by right). }
  split; [done |]. split; [done |]. apply added_by_without_throw.
Qed.

End ConsumeFacts.

(** * The further properties on the sample runs *)

(** A record is added while a flush is in flight, [stop] is called, the
    delivery settles: one record delivered, one still buffered. *)
Lemma no_record_lost_or_duplicated_witness :
  run json_text
    [EvAdd "{'n':1}"; EvTick 0%nat; EvAdd "{'n':2}"; EvStop; EvSettle 0 Fulfilled]
    (new_BatchAccumulator test_config) = Some settled_after_stop
  ∧ delivered settled_after_stop
      ++ read (batch (this settled_after_stop)) settled_after_stop
    = adds_of [EvAdd "{'n':1}"; EvTick 0%nat; EvAdd "{'n':2}"; EvStop;
               EvSettle 0 Fulfilled].
Proof.
  assert (run json_text
            [EvAdd "{'n':1}"; EvTick 0%nat; EvAdd "{'n':2}"; EvStop;
             EvSettle 0 Fulfilled]
            (new_BatchAccumulator test_config) = Some settled_after_stop) as Hrun
    by by_evaluation.
  split; [exact Hrun |].
  exact (no_record_lost_or_duplicated json_text test_config _ _ Hrun).
Defined.

Lemma delivered_batches_distinct_nonempty_witness :
  reachable json_text test_config one_in_flight
  ∧ NoDup (onFlush_calls one_in_flight)
  ∧ batch (this one_in_flight) ∉ onFlush_calls one_in_flight.
Proof.
  split; [exact one_in_flight_reachable |].
  destruct (delivered_batches_distinct_nonempty json_text test_config one_in_flight
              one_in_flight_reachable) as (H1 & _ & H2).
  split; [exact H1 | exact H2].
Defined.

Lemma console_errors_are_rejections_witness :
  run json_text [EvAdd "{}"; EvFlush; EvSettle 0 (Rejected "Flush failed")]
    (new_BatchAccumulator test_config) = Some one_rejected
  ∧ console_errors one_rejected
    = rejections [EvAdd "{}"; EvFlush; EvSettle 0 (Rejected "Flush failed")].
Proof.
  assert (run json_text [EvAdd "{}"; EvFlush; EvSettle 0 (Rejected "Flush failed")]
            (new_BatchAccumulator test_config) = Some one_rejected) as Hrun
    by by_evaluation.
  split; [exact Hrun |].
  exact (console_errors_are_rejections json_text test_config _ _ Hrun).
Defined.

Lemma add_grows_counters_witness :
  reachable json_text test_config one_buffered
  ∧ json_text "{'n':2}" ≠ ""
  ∧ estimatedSizeBytes one_buffered
    < estimatedSizeBytes (add json_text "{'n':2}" one_buffered).2.
Proof.
  assert (json_text "{'n':2}" ≠ "") as Hne by by_evaluation.
  split; [exact one_buffered_reachable |]. split; [exact Hne |].
  destruct (add_grows_counters json_text test_config one_buffered "{'n':2}"
              one_buffered_reachable) as (_ & H & _).
  exact (H Hne).
Defined.

Lemma quoted_nonempty log : quoted log ≠ "".
Proof. unfold quoted. intros H. vm_compute in H. discriminate H. Defined.

Lemma counters_agree_on_empty_witness :
  reachable quoted test_config new_quoted_accumulator
  ∧ (∀ log, quoted log ≠ "")
  ∧ size new_quoted_accumulator ≤ estimatedSizeBytes new_quoted_accumulator.
Proof.
  assert (reachable quoted test_config new_quoted_accumulator) as Hr
    by (exists []; by_evaluation).
  split; [exact Hr |]. split; [exact quoted_nonempty |].
  destruct (counters_agree_on_empty quoted test_config new_quoted_accumulator Hr)
    as (_ & _ & H).
  exact (proj1 (H quoted_nonempty)).
Defined.

Lemma needsFlush_on_empty_buffer_witness :
  reachable json_text test_config new_accumulator
  ∧ read (batch (this new_accumulator)) new_accumulator = []
  ∧ (needsFlush new_accumulator = false ↔ 0 < maxBatchSizeBytes test_config).
Proof.
  assert (read (batch (this new_accumulator)) new_accumulator = []) as He
    by by_evaluation.
  split; [exact new_accumulator_reachable |]. split; [exact He |].
  exact (proj2 (needsFlush_on_empty_buffer json_text test_config new_accumulator
                  new_accumulator_reachable He)).
Defined.

Lemma startTimer_keeps_one_interval_witness :
  reachable json_text test_config one_buffered
  ∧ ∃ h, timer (this (startTimer one_buffered)) = Some h
         ∧ intervals (startTimer one_buffered) = {[h]}.
Proof.
  split; [exact one_buffered_reachable |].
  destruct (startTimer_keeps_one_interval json_text test_config one_buffered
              one_buffered_reachable) as (h & H1 & H2 & _).
  exists h. split; [exact H1 | exact H2].
Defined.

Lemma no_tick_after_stop_witness :
  reachable json_text test_config one_buffered
  ∧ run json_text [EvStop; EvSettle 0 Fulfilled] one_buffered = Some one_stopped
  ∧ timer (this one_stopped) = None
  ∧ intervals one_stopped = ∅.
Proof.
  assert (run json_text [EvStop; EvSettle 0 Fulfilled] one_buffered = Some one_stopped)
    as Hrun by by_evaluation.
  split; [exact one_buffered_reachable |]. split; [exact Hrun |].
  destruct (no_tick_after_stop json_text test_config one_buffered _ one_stopped
              one_buffered_reachable Hrun) as (_ & H1 & H2 & _).
  split; [exact H1 | exact H2].
Defined.

Lemma stop_during_flight_returns_at_once_witness :
  reachable json_text test_config one_in_flight
  ∧ flushing (this one_in_flight) = true
  ∧ stop one_in_flight = Returned (cancel_timer one_in_flight).
Proof.
  assert (flushing (this one_in_flight) = true) as Hf by by_evaluation.
  split; [exact one_in_flight_reachable |]. split; [exact Hf |].
  exact (proj1 (stop_during_flight_returns_at_once json_text test_config one_in_flight
                  one_in_flight_reachable Hf)).
Defined.

Lemma severity_in_range_and_ordered_witness :
  transformLog decimal object_Object (Some info_record) test_options = Some info_log
  ∧ transformLog decimal object_Object
      (Some (test_record (JsNumber (inject_Z 50)))) test_options = Some error_log
  ∧ pretty 30 ∈ dom LEVEL_TO_SEVERITY ∧ pretty 50 ∈ dom LEVEL_TO_SEVERITY
  ∧ ∃ n1 n2, CoralogixLog.severity info_log = Ordinal n1
             ∧ CoralogixLog.severity error_log = Ordinal n2
             ∧ 30 = 10 * n1
             ∧ (30 < 50 ↔ n1 < n2).
Proof.
  assert (transformLog decimal object_Object (Some info_record) test_options
          = Some info_log) as Hlog1 by by_evaluation.
  assert (transformLog decimal object_Object
            (Some (test_record (JsNumber (inject_Z 50)))) test_options
          = Some error_log) as Hlog2 by by_evaluation.
  assert (pretty 30 ∈ dom LEVEL_TO_SEVERITY) as H30
    by (apply elem_of_dom; exists 3; by_evaluation).
  assert (pretty 50 ∈ dom LEVEL_TO_SEVERITY) as H50
    by (apply elem_of_dom; exists 5; by_evaluation).
  assert (ToPropertyKey decimal object_Object (PinoLog.level info_record)
          = Some (pretty 30)) as Hkey1 by by_evaluation.
  assert (ToPropertyKey decimal object_Object
            (PinoLog.level (test_record (JsNumber (inject_Z 50))))
          = Some (pretty 50)) as Hkey2 by by_evaluation.
  split; [exact Hlog1 |]. split; [exact Hlog2 |]. split; [exact H30 |].
  split; [exact H50 |].
  destruct (severity_in_range_and_ordered decimal object_Object info_record
              (test_record (JsNumber (inject_Z 50))) test_options info_log error_log
              Hlog1 Hlog2) as (_ & _ & H).
  exact (H 30 50 Hkey1 Hkey2 H30 H50).
Defined.

Lemma optional_fields_absent_or_truthy_witness :
  truthy (Options.computerName named_options) = true
  ∧ ∃ log, transformLog decimal object_Object (Some info_record) named_options
           = Some log
           ∧ CoralogixLog.computerName log = Options.computerName named_options.
Proof.
  split; [reflexivity |].
  pose proof (optional_fields_absent_or_truthy decimal object_Object info_record
                named_options) as H.
  destruct (transformLog decimal object_Object (Some info_record) named_options)
    as [log|] eqn:Hlog; [| by vm_compute in Hlog].
  exists log. split; [reflexivity |].
  destruct H as (_ & H & _). exact (H eq_refl).
Defined.

Lemma validateConfig_accepts_witness :
  (∃ s, Options.domain test_options = JsString s ∧ s ∈ VALID_DOMAINS)
  ∧ validateConfig test_options = None.
Proof.
  assert (∃ s, Options.domain test_options = JsString s ∧ s ∈ VALID_DOMAINS) as Hd.
  { exists "us1". split; [reflexivity | apply list_elem_of_here]. }
  split; [exact Hd |].
  apply (validateConfig_accepts test_options).
  split; [exact Hd |]. split; [reflexivity |]. split; reflexivity.
Defined.

Lemma validateConfig_reports_first_failure_witness :
  truthy (Options.domain options_without_domain) = false
  ∧ validateConfig options_without_domain = Some DomainRequired.
Proof.
  split; [reflexivity |].
  destruct (validateConfig_reports_first_failure options_without_domain) as (H & _).
  apply H. reflexivity.
Defined.

Lemma buildEndpointUrl_injective_witness :
  "us1" ≠ "us2" ∧ buildEndpointUrl "us1" ≠ buildEndpointUrl "us2".
Proof.
  assert ("us1" ≠ "us2") as Hne by discriminate.
  split; [exact Hne |]. intros Heq. apply Hne.
  exact (proj1 (buildEndpointUrl_injective "us1" "us2") Heq).
Defined.

Lemma sendLogs_succeeds_on_2xx_witness :
  200 ≤ 200 < 300 ∧ sendLogs_settle (Responded 200 "{'status':'ok'}") = inl 200.
Proof.
  assert (200 ≤ 200 < 300) as Hs by lia.
  split; [exact Hs |].
  apply (sendLogs_succeeds_on_2xx (Responded 200 "{'status':'ok'}") 200).
  exists "{'status':'ok'}". split; [reflexivity | exact Hs].
Defined.

Lemma sendLogs_classifies_failures_witness :
  ¬ (200 ≤ 413 < 300)
  ∧ sendLogs_settle (Responded 413 "Payload Too Large")
    = inr (HttpError "HTTP 413: Payload Too Large" 413 "Payload Too Large").
Proof.
  assert (¬ (200 ≤ 413 < 300)) as Hs by lia.
  split; [exact Hs |].
  destruct (sendLogs_classifies_failures (Responded 413 "Payload Too Large")) as (H & _).
  apply H. split; [reflexivity |]. split; [exact Hs | by_evaluation].
Defined.

Lemma request_body_exceeds_estimate_witness :
  reachable json_text test_config one_buffered
  ∧ flush one_buffered = Awaiting one_in_flight 0%nat
  ∧ Z.of_nat (String.length
                (body (sendLogs_request json_text (read 0%nat one_in_flight)
                         "us1" "test-key" (Some 5000))))
    = estimatedSizeBytes one_buffered + size one_buffered + 1.
Proof.
  assert (flush one_buffered = Awaiting one_in_flight 0%nat) as Hfl by by_evaluation.
  split; [exact one_buffered_reachable |]. split; [exact Hfl |].
  exact (proj1 (request_body_exceeds_estimate json_text test_config one_buffered
                  one_in_flight 0%nat "us1" "test-key" (Some 5000)
                  one_buffered_reachable Hfl)).
Defined.

(** A source of three items whose second is the line [null]: the first
    record is delivered by the final [stop], the third is never read, and the
    function throws. *)
Lemma transport_delivers_every_record_witness :
  let source := [inr (Some info_record); inl "null"; inr (Some info_record)] in
  let run := consume decimal object_Object text_only null_only test_options
               (λ _, Fulfilled) source new_transport_accumulator in
  delivered run.2 = [info_log]
  ∧ run.1 = Throw TypeError
  ∧ ¬ Forall (λ obj, throws decimal object_Object null_only test_options obj = false)
        source.
Proof.
  intros source run.
  destruct (transport_delivers_every_record decimal object_Object text_only null_only
              test_options (λ _, Fulfilled) source)
    as (Hd & _ & _ & _ & _ & _ & _ & Hnormal & Hcases & _).
  assert (added_by decimal object_Object null_only test_options source = [info_log])
    as Hadded by by_evaluation.
  assert (¬ Forall (λ obj, throws decimal object_Object null_only test_options obj
                           = false) source) as Hthrows.
  { intros Hall. apply Forall_cons in Hall as [_ Hall].
    apply Forall_cons in Hall as [Hnull _]. by vm_compute in Hnull. }
  split; [by rewrite <- Hadded |].
  split; [| exact Hthrows].
  destruct Hcases as [Hc | Hc]; [| exact Hc].
  exfalso. apply Hthrows. by apply Hnormal.
Defined.
